(** * A lexer and recursive-descent parser for a small C-like language

    Shallow embedding of [src/compiler.cpp] and the properties of its
    specification.

    - Part I is the program: the character classes of [<cctype>], the
      [Token] and [ASTNode] structures, [Lexer::tokenize] with
      [Lexer::isKeyword], and the [Parser] methods [parse],
      [parseDeclaration], [parseBlock] and [parseStatement].  Loops take
      fuel; the statement parsers that [parseStatement] calls and the
      source does not define are parameters of the parser.
    - Part II models those statement parsers from the specification.
    - Part III holds the vocabulary in which the properties are stated.
    - Part IV holds the proofs.
    - Part V holds further properties of the lexer and of the parser,
      with their own vocabulary. *)

From Stdlib Require Import Bool Arith NArith ZArith List Ascii String Lia.
Import ListNotations.

Local Open Scope string_scope.
Local Open Scope list_scope.

(** String concatenation, kept apart from list concatenation. *)
Local Infix "+++" := String.append (at level 60, right associativity).

(* ################################################################## *)
(** * Part I: the program *)

(* ================================================================== *)
(** ** Character classification ([<cctype>], "C" locale)

    The program never calls [setlocale], so the classification functions
    are those of the "C" locale.  A [char] is modelled as an [ascii]
    (one byte); bytes above 127 belong to no class. *)

Definition code (c : ascii) : N := N_of_ascii c.

Definition in_range (lo hi : N) (c : ascii) : bool :=
  (lo <=? code c)%N && (code c <=? hi)%N.

Definition newline : ascii := "010"%char.

(** [isspace]: space, and the control characters [\t \n \v \f \r]. *)
Definition isspace (c : ascii) : bool :=
  (code c =? 32)%N || in_range 9 13 c.

Definition isdigit (c : ascii) : bool := in_range 48 57 c.

Definition isalpha (c : ascii) : bool :=
  in_range 65 90 c || in_range 97 122 c.

Definition isalnum (c : ascii) : bool := isalpha c || isdigit c.

(** [ispunct]: every printing character that is neither a space nor
    alphanumeric. *)
Definition ispunct (c : ascii) : bool :=
  in_range 33 47 c || in_range 58 64 c || in_range 91 96 c
  || in_range 123 126 c.

(** [s[n]]; indexing at [n = s.length()] yields the null character, as
    [std::string::operator[]] does. *)
Definition char_at (s : string) (n : nat) : ascii :=
  match String.get n s with
  | Some c => c
  | None => Ascii.zero
  end.

(* ================================================================== *)
(** ** [int]

    An [int] is a 32-bit two's-complement integer, modelled as the
    integer in [-2^31, 2^31) that it denotes.  [int32 z] is the [int]
    that a mathematical integer [z] wraps around to, and [int_incr] is
    [x++]: incrementing 2147483647 gives -2147483648, as it does on the
    two's-complement machines the program runs on. *)

Definition int32 (z : Z) : Z :=
  ((z + 2147483648) mod 4294967296 - 2147483648)%Z.

Definition int_incr (x : Z) : Z := int32 (x + 1).

(* ================================================================== *)
(** ** Tokens *)

Module Token.
(** [struct Token { std::string type, value; int line, column; }]

    The [int] members hold values of [int32]: the lexer copies them from
    its own [line] and [column]. *)
Record t : Type := mk {
  type : string;
  value : string;
  line : Z;
  column : Z
}.
End Token.

(* ================================================================== *)
(** ** The lexer *)

Module Lexer.

(** The mutable members of [class Lexer].  [line] and [column] are
    [int]s: they start at 1 and change by [int_incr] only. *)
Record t : Type := mk {
  input : string;
  position : nat;
  line : Z;
  column : Z
}.

(** The [patterns] member: a table of token types and regular
    expressions that describes the lexical classes; [tokenize] never
    consults it. *)
Definition patterns : list (string * string) :=
  [ ("KEYWORD", "int|char|float|double|void|if|else|while|for|return|printf");
    ("IDENTIFIER", "[a-zA-Z_][a-zA-Z0-9_]*");
    ("NUMBER", "\d+(\.\d+)?");
    ("OPERATOR", "[+\-*/%=<>!]");
    ("PUNCTUATION", "[;,(){}\[\]]");
    ("WHITESPACE", "[ \t\n\r]+") ].

(** [Lexer(source) : input(source), position(0), line(1), column(1)] *)
Definition init (source : string) : t := mk source 0 1 1.

(** The static [keywords] table of [isKeyword]. *)
Definition keywords : list (string * bool) :=
  [ ("int", true); ("char", true); ("float", true);
    ("double", true); ("void", true); ("if", true);
    ("else", true); ("while", true); ("for", true);
    ("return", true); ("printf", true) ].

(** [keywords.find(word) != keywords.end()] *)
Definition isKeyword (word : string) : bool :=
  match find (fun kv => String.eqb (fst kv) word) keywords with
  | Some _ => true
  | None => false
  end.

Definition is_ident_start (c : ascii) : bool :=
  isalpha c || Ascii.eqb c "_".

Definition is_ident_char (c : ascii) : bool :=
  isalnum c || Ascii.eqb c "_".

Definition is_number_char (c : ascii) : bool :=
  isdigit c || Ascii.eqb c ".".

Definition current (lx : t) : ascii := char_at (input lx) (position lx).

Definition in_input (lx : t) : bool :=
  Nat.ltb (position lx) (String.length (input lx)).

(** The two inner loops of [tokenize] (lines 70-75 and 91-96):
    [while (position < input.length() && p(input[position]))
       { acc += input[position]; position++; column++; }] *)
Fixpoint scan (p : ascii -> bool) (fuel : nat) (lx : t) (acc : string)
  : option (t * string) :=
  match fuel with
  | O => None
  | S fuel' =>
      if in_input lx && p (current lx) then
        scan p fuel'
          (mk (input lx) (S (position lx)) (line lx) (int_incr (column lx)))
          (acc +++ String (current lx) EmptyString)
      else Some (lx, acc)
  end.

(** One iteration of the outer [while] loop of [tokenize]. *)
Definition tokenize_body (fuel : nat) (lx : t) (tokens : list Token.t)
  : option (t * list Token.t) :=
  let current := current lx in
  if isspace current then
    let lx1 :=
      if Ascii.eqb current newline
      then mk (input lx) (position lx) (int_incr (line lx)) 1
      else mk (input lx) (position lx) (line lx) (int_incr (column lx)) in
    Some (mk (input lx1) (S (position lx1)) (line lx1) (column lx1), tokens)
  else if isalpha current || Ascii.eqb current "_" then
    let start_column := column lx in
    match scan is_ident_char fuel lx EmptyString with
    | Some (lx', identifier) =>
        if isKeyword identifier
        then Some (lx', tokens ++
               [Token.mk "KEYWORD" identifier (line lx') start_column])
        else Some (lx', tokens ++
               [Token.mk "IDENTIFIER" identifier (line lx') start_column])
    | None => None
    end
  else if isdigit current then
    let start_column := column lx in
    match scan is_number_char fuel lx EmptyString with
    | Some (lx', number) =>
        Some (lx', tokens ++
               [Token.mk "NUMBER" number (line lx') start_column])
    | None => None
    end
  else
    let op_punct := String current EmptyString in
    Some (mk (input lx) (S (position lx)) (line lx) (int_incr (column lx)),
          tokens ++
            [Token.mk (if ispunct current then "PUNCTUATION" else "OPERATOR")
                      op_punct (line lx) (column lx)]).

(** [while (position < input.length()) { ... } return tokens;] *)
Fixpoint tokenize_loop (fuel : nat) (lx : t) (tokens : list Token.t)
  : option (t * list Token.t) :=
  match fuel with
  | O => None
  | S fuel' =>
      if in_input lx then
        match tokenize_body fuel' lx tokens with
        | Some (lx', tokens') => tokenize_loop fuel' lx' tokens'
        | None => None
        end
      else Some (lx, tokens)
  end.

(** Fuel that always suffices: every iteration of every loop consumes a
    character, and the last iteration only tests the loop condition
    (see [tokenize_loop_Lexes]). *)
Definition fuel_for (source : string) : nat := S (S (String.length source)).

(** [Lexer(source).tokenize()] *)
Definition tokenize (source : string) : option (list Token.t) :=
  match tokenize_loop (fuel_for source) (init source) [] with
  | Some (_, tokens) => Some tokens
  | None => None
  end.

End Lexer.

(* ================================================================== *)
(** ** Syntax trees *)

Module ASTNode.
(** [struct ASTNode { std::string type, value;
                      std::vector<std::shared_ptr<ASTNode>> children; }] *)
#[warnings="-register-all"]
Inductive t : Type := mk {
  type : string;
  value : string;
  children : list t
}.

(** [std::make_shared<ASTNode>()] followed by [node->type = ty]. *)
Definition make (ty : string) : t := mk ty EmptyString [].

(** [node->children.push_back(child)] *)
Definition push_back (node child : t) : t :=
  mk (type node) (value node) (children node ++ [child]).

(** [if (child) node->children.push_back(child)] *)
Definition push_back_if (node : t) (child : option t) : t :=
  match child with
  | Some c => push_back node c
  | None => node
  end.
End ASTNode.

(* ================================================================== *)
(** ** The parser

    A [Parser] method is a function of the member [current] returning
    its value together with the new [current].  Reading [tokens[current]]
    beyond the end of the vector is undefined behaviour in the source; the
    model makes it the outcome [OutOfBounds].  A loop that has not
    finished when its fuel is spent yields [OutOfFuel]. *)

Inductive result (A : Type) : Type :=
| Ok (a : A)
| OutOfBounds
| OutOfFuel.
Arguments Ok {A} a.
Arguments OutOfBounds {A}.
Arguments OutOfFuel {A}.

Definition M (A : Type) : Type := nat -> result (A * nat).

Definition ret {A : Type} (a : A) : M A := fun current => Ok (a, current).

Definition bind {A B : Type} (m : M A) (k : A -> M B) : M B :=
  fun current =>
    match m current with
    | Ok (a, current') => k a current'
    | OutOfBounds => OutOfBounds
    | OutOfFuel => OutOfFuel
    end.

Definition out_of_fuel {A : Type} : M A := fun _ => OutOfFuel.

Declare Scope parser_scope.
Delimit Scope parser_scope with parser.
Notation "x <- m ;; k" := (bind m (fun x => k))
  (at level 61, m at next level, right associativity) : parser_scope.
Notation "m ;; k" := (bind m (fun _ => k))
  (at level 61, right associativity) : parser_scope.
Local Open Scope parser_scope.

(** [a && b] and [a || b]: the right operand is evaluated only when the
    left one does not decide. *)
Definition and_then (a b : M bool) : M bool :=
  x <- a ;; if x then b else ret false.

Definition or_else (a b : M bool) : M bool :=
  x <- a ;; if x then ret true else b.

Infix "&&&" := and_then (at level 40, left associativity) : parser_scope.
Infix "|||" := or_else (at level 50, left associativity) : parser_scope.

(** [if (b) m;] *)
Definition when (b : bool) (m : M unit) : M unit :=
  if b then m else ret tt.

(** [while (cond) { a = body(a); }] *)
Fixpoint while {A : Type} (fuel : nat) (cond : M bool) (body : A -> M A)
         (a : A) : M A :=
  match fuel with
  | O => out_of_fuel
  | S fuel' =>
      b <- cond ;;
      if b then a' <- body a ;; while fuel' cond body a' else ret a
  end.

Section Parser.

(** The member [tokens]. *)
Variable tokens : list Token.t.

(** The statement parsers that [parseStatement] calls and the source
    does not define.  [parseIfStatement] receives the block parser it
    may call back. *)
Variable parseIfStatement : M ASTNode.t -> M (option ASTNode.t).
Variable parseReturnStatement : M (option ASTNode.t).
Variable parseExpressionStatement : M (option ASTNode.t).

(** [current < tokens.size()] *)
Definition below_size : M bool :=
  fun current => Ok (Nat.ltb current (List.length tokens), current).

(** [current >= tokens.size()] *)
Definition at_end : M bool :=
  fun current => Ok (Nat.leb (List.length tokens) current, current).

(** [tokens[current]] *)
Definition token : M Token.t :=
  fun current =>
    match nth_error tokens current with
    | Some t => Ok (t, current)
    | None => OutOfBounds
    end.

(** [current++] *)
Definition next : M unit := fun current => Ok (tt, S current).

(** [tokens[current].type != ty] *)
Definition type_is_not (ty : string) : M bool :=
  t <- token ;; ret (negb (String.eqb (Token.type t) ty)).

(** [tokens[current].type == ty] *)
Definition type_is (ty : string) : M bool :=
  t <- token ;; ret (String.eqb (Token.type t) ty).

(** [tokens[current].value == v] *)
Definition value_is (v : string) : M bool :=
  t <- token ;; ret (String.eqb (Token.value t) v).

(** [tokens[current].value != v] *)
Definition value_is_not (v : string) : M bool :=
  t <- token ;; ret (negb (String.eqb (Token.value t) v)).

(** [tokens[current++].value] *)
Definition value_next : M string :=
  t <- token ;; next ;; ret (Token.value t).

(** [Parser::parseStatement], given the block parser for nested
    blocks. *)
Definition parseStatement_body (parseBlock : M ASTNode.t)
  : M (option ASTNode.t) :=
  e <- at_end ;;
  if e then ret None
  else
    let expression_statement : M (option ASTNode.t) :=
      stmt <- parseExpressionStatement ;;
      b <- below_size &&& value_is ";" ;;
      when b next ;;
      ret stmt in
    k <- type_is "KEYWORD" ;;
    if k then
      i <- value_is "if" ;;
      if i then parseIfStatement parseBlock
      else
        r <- value_is "return" ;;
        if r then parseReturnStatement else expression_statement
    else expression_statement.

(** [Parser::parseBlock] and [Parser::parseStatement]. *)
Fixpoint parseBlock (fuel : nat) : M ASTNode.t :=
  match fuel with
  | O => out_of_fuel
  | S fuel' =>
      block <- while fuel' (below_size &&& value_is_not "}")
                 (fun block =>
                    statement <- parseStatement fuel' ;;
                    ret (ASTNode.push_back_if block statement))
                 (ASTNode.make "BLOCK") ;;
      b <- below_size &&& value_is "}" ;;
      when b next ;;
      ret block
  end
with parseStatement (fuel : nat) : M (option ASTNode.t) :=
  match fuel with
  | O => out_of_fuel
  | S fuel' => parseStatement_body (parseBlock fuel')
  end.

(** [Parser::parseDeclaration] *)
Definition parseDeclaration (fuel : nat) : M (option ASTNode.t) :=
  b <- at_end ||| type_is_not "KEYWORD" ;;
  if b then ret None
  else
    type <- value_next ;;
    b <- at_end ||| type_is_not "IDENTIFIER" ;;
    if b then ret None
    else
      name <- value_next ;;
      b <- below_size &&& value_is "(" ;;
      if b then
        let funcNode :=
          ASTNode.mk "FUNCTION_DECLARATION" name [] in
        next ;;
        while fuel (below_size &&& value_is_not ")") (fun _ => next) tt ;;
        b <- below_size &&& value_is ")" ;;
        when b next ;;
        b <- below_size &&& value_is "{" ;;
        if b then
          next ;;
          block <- parseBlock fuel ;;
          ret (Some (ASTNode.push_back funcNode block))
        else ret (Some funcNode)
      else ret None.

(** [Parser::parse] *)
Definition parse (fuel : nat) : M ASTNode.t :=
  while fuel below_size
    (fun root =>
       node <- parseDeclaration fuel ;;
       ret (ASTNode.push_back_if root node))
    (ASTNode.make "PROGRAM").

(** [Parser(tokens).parse()]: the constructor sets [current] to 0. *)
Definition run_parse (fuel : nat) : result ASTNode.t :=
  match parse fuel 0 with
  | Ok (root, _) => Ok root
  | OutOfBounds => OutOfBounds
  | OutOfFuel => OutOfFuel
  end.

End Parser.

(* ################################################################## *)
(** * Part II: the statement parsers, modelled *)

(* ================================================================== *)
(** ** The statement parsers the source leaves undefined *)

Module SpecModel.

(** Modelled from the spec: the raw token span of an expression, absent
    from the source like the parsers that use it: the longest run of
    tokens before the lexeme [stop]. *)
Fixpoint take_until (stop : string) (l : list Token.t) : list Token.t :=
  match l with
  | [] => []
  | t :: l' =>
      if String.eqb (Token.value t) stop then [] else t :: take_until stop l'
  end.

(** Modelled from the spec: the expression parser, absent from the
    source.  The specification leaves the expression grammar a stub that
    captures the raw token span; [raw_span] consumes the tokens up to the
    lexeme that ends the construct. *)
Definition raw_span (tokens : list Token.t) (stop : string)
  : M (list Token.t) :=
  fun current =>
    let raw := take_until stop (skipn current tokens) in
    Ok (raw, current + List.length raw).

(** Modelled from the spec: an optional expression; an empty span
    yields no node. *)
Definition parseExpression (tokens : list Token.t) (stop : string)
  : M (option ASTNode.t) :=
  raw <- raw_span tokens stop ;;
  ret (match raw with
       | [] => None
       | _ => Some (ASTNode.mk "EXPRESSION"
                      (String.concat " " (map Token.value raw)) [])
       end).

(** Modelled from the spec: [parseReturnStatement], absent from the
    source: consume [return], parse an optional expression, expect a
    terminating [;]; the node is a return statement with the expression
    as its single optional child. *)
Definition parseReturnStatement (tokens : list Token.t)
  : M (option ASTNode.t) :=
  next ;;
  e <- parseExpression tokens ";" ;;
  b <- below_size tokens &&& value_is tokens ";" ;;
  when b next ;;
  ret (Some (ASTNode.push_back_if (ASTNode.make "RETURN_STATEMENT") e)).

(** Modelled from the spec: [parseExpressionStatement], absent from the
    source: parse a generic expression, capturing the raw token span as
    the statement's value, and consume a trailing [;] if present. *)
Definition parseExpressionStatement (tokens : list Token.t)
  : M (option ASTNode.t) :=
  raw <- raw_span tokens ";" ;;
  b <- below_size tokens &&& value_is tokens ";" ;;
  when b next ;;
  ret (Some (ASTNode.mk "EXPRESSION_STATEMENT"
               (String.concat " " (map Token.value raw)) [])).

(** Modelled from the spec: [parseIfStatement], absent from the source:
    consume [if], consume a parenthesized condition expression, parse the
    then-block, and if followed by [else] consume it and parse an
    else-block; the children are the condition, the then-block and the
    optional else-block.  A block is entered as [parseDeclaration] enters
    a function body: after its opening brace. *)
Definition parseIfStatement (tokens : list Token.t) (parseBlock : M ASTNode.t)
  : M (option ASTNode.t) :=
  let block_into (node : ASTNode.t) : M ASTNode.t :=
    b <- below_size tokens &&& value_is tokens "{" ;;
    if b then
      next ;; block <- parseBlock ;; ret (ASTNode.push_back node block)
    else ret node in
  next ;;
  b <- below_size tokens &&& value_is tokens "(" ;;
  when b next ;;
  condition <- parseExpression tokens ")" ;;
  b <- below_size tokens &&& value_is tokens ")" ;;
  when b next ;;
  node <- block_into
            (ASTNode.push_back_if (ASTNode.make "IF_STATEMENT") condition) ;;
  b <- below_size tokens &&& value_is tokens "else" ;;
  if b then next ;; node <- block_into node ;; ret (Some node)
  else ret (Some node).

(** The parser completed with the modelled statement parsers. *)
Definition parse (tokens : list Token.t) (fuel : nat) : result ASTNode.t :=
  run_parse tokens (parseIfStatement tokens) (parseReturnStatement tokens)
    (parseExpressionStatement tokens) fuel.

End SpecModel.

(* ################################################################## *)
(** * Part III: vocabulary of the properties *)

(* ================================================================== *)
(** ** Strings *)

(** The part of [s] from index [n] on. *)
Fixpoint drop (n : nat) (s : string) : string :=
  match n, s with
  | O, _ => s
  | S n', String _ s' => drop n' s'
  | S _, EmptyString => EmptyString
  end.

(** Longest prefix whose characters all satisfy [p], and the remainder. *)
Fixpoint span (p : ascii -> bool) (s : string) : string * string :=
  match s with
  | String c s' =>
      if p c then let (w, r) := span p s' in (String c w, r)
      else (EmptyString, s)
  | EmptyString => (EmptyString, EmptyString)
  end.

Fixpoint all_chars (p : ascii -> bool) (s : string) : bool :=
  match s with
  | String c s' => p c && all_chars p s'
  | EmptyString => true
  end.

Fixpoint filter_chars (p : ascii -> bool) (s : string) : string :=
  match s with
  | String c s' => if p c then String c (filter_chars p s') else filter_chars p s'
  | EmptyString => EmptyString
  end.

Fixpoint count_chars (p : ascii -> bool) (s : string) : nat :=
  match s with
  | String c s' => (if p c then 1 else 0) + count_chars p s'
  | EmptyString => 0
  end.

Definition starts_with (p : ascii -> bool) (s : string) : bool :=
  match s with
  | String c _ => p c
  | EmptyString => false
  end.

(* ================================================================== *)
(** ** Reading a token sequence back against the source text *)

Definition nonspace (c : ascii) : bool := negb (isspace c).

(** The lexemes of a token sequence, written one after the other. *)
Fixpoint lexeme_text (tokens : list Token.t) : string :=
  match tokens with
  | [] => EmptyString
  | t :: ts => Token.value t +++ lexeme_text ts
  end.

Fixpoint total_lexeme_length (tokens : list Token.t) : nat :=
  match tokens with
  | [] => 0
  | t :: ts => String.length (Token.value t) + total_lexeme_length ts
  end.

(** Position tracking as the specification words it: a newline moves to
    column 1 of the next line, any other character to the next column. *)
Definition advance_pos (pos : Z * Z) (c : ascii) : Z * Z :=
  if Ascii.eqb c newline then (fst pos + 1, 1)%Z else (fst pos, snd pos + 1)%Z.

Fixpoint position_after (pos : Z * Z) (s : string) : Z * Z :=
  match s with
  | EmptyString => pos
  | String c s' => position_after (advance_pos pos c) s'
  end.

(** The pair of [int]s that holds a position. *)
Definition int_pos (pos : Z * Z) : Z * Z := (int32 (fst pos), int32 (snd pos)).

(** The largest [int], and the inputs on which no line or column number
    exceeds it. *)
Definition int_max : Z := 2147483647.

Definition fits_int (s : string) : Prop :=
  (Z.of_nat (String.length s) < int_max)%Z.

(** [n] space characters. *)
Fixpoint blanks (n : nat) : string :=
  match n with
  | O => EmptyString
  | S n' => String " " (blanks n')
  end.

(** The three forms a token takes, one per emitting branch of the loop
    body, given the input [post] that follows the lexeme. *)
Definition token_shape (t : Token.t) (post : string) : Prop :=
  match Token.value t with
  | EmptyString => False
  | String a w =>
      (Lexer.is_ident_start a = true
       /\ all_chars Lexer.is_ident_char w = true
       /\ starts_with Lexer.is_ident_char post = false
       /\ Token.type t
          = if Lexer.isKeyword (Token.value t) then "KEYWORD" else "IDENTIFIER")
      \/ (isdigit a = true
          /\ all_chars Lexer.is_number_char w = true
          /\ starts_with Lexer.is_number_char post = false
          /\ Token.type t = "NUMBER")
      \/ (isspace a = false /\ Lexer.is_ident_start a = false
          /\ isdigit a = false /\ w = EmptyString
          /\ Token.type t = if ispunct a then "PUNCTUATION" else "OPERATOR")
  end.

(** Where a token comes from: the text before it, its position (held in
    [int]s), the tokens before it and its form. *)
Definition occurs_at (s : string) (l c : Z) (toks : list Token.t)
           (i : nat) (t : Token.t) : Prop :=
  exists pre post,
    s = pre +++ Token.value t +++ post
    /\ (Token.line t, Token.column t) = int_pos (position_after (l, c) pre)
    /\ filter_chars nonspace pre = lexeme_text (firstn i toks)
    /\ token_shape t post.

(** The keyword set of the specification. *)
Definition keyword_set : list string :=
  [ "int"; "char"; "float"; "double"; "void"; "if"; "else"; "while";
    "for"; "return"; "printf" ].

Definition kind_and_lexeme (t : Token.t) : string * string :=
  (Token.type t, Token.value t).

(** The lexemes in order, single spaces between them. *)
Definition join_lexemes (tokens : list Token.t) : string :=
  String.concat " " (map Token.value tokens).

(* ================================================================== *)
(** ** The token sequence of a source suffix

    [Lexes s l c toks]: scanning the remaining input [s] from line [l],
    column [c] pushes exactly [toks].  One rule per branch of the loop
    body of [tokenize]; [tokenize_loop_Lexes] shows that the loop
    computes this relation.  [l] and [c] count in the integers; the
    lexer holds them in [int]s, and so do the tokens. *)

Inductive Lexes : string -> Z -> Z -> list Token.t -> Prop :=
| Lexes_end : forall l c, Lexes EmptyString l c []
| Lexes_newline : forall s l c toks,
    Lexes s (l + 1)%Z 1%Z toks ->
    Lexes (String newline s) l c toks
| Lexes_blank : forall a s l c toks,
    isspace a = true -> a <> newline ->
    Lexes s l (c + 1)%Z toks ->
    Lexes (String a s) l c toks
| Lexes_word : forall a s l c w r toks,
    isspace a = false -> Lexer.is_ident_start a = true ->
    span Lexer.is_ident_char (String a s) = (w, r) ->
    Lexes r l (c + Z.of_nat (String.length w))%Z toks ->
    Lexes (String a s) l c
      (Token.mk (if Lexer.isKeyword w then "KEYWORD" else "IDENTIFIER") w
         (int32 l) (int32 c) :: toks)
| Lexes_number : forall a s l c w r toks,
    isspace a = false -> Lexer.is_ident_start a = false ->
    isdigit a = true ->
    span Lexer.is_number_char (String a s) = (w, r) ->
    Lexes r l (c + Z.of_nat (String.length w))%Z toks ->
    Lexes (String a s) l c (Token.mk "NUMBER" w (int32 l) (int32 c) :: toks)
| Lexes_symbol : forall a s l c toks,
    isspace a = false -> Lexer.is_ident_start a = false ->
    isdigit a = false ->
    Lexes s l (c + 1)%Z toks ->
    Lexes (String a s) l c
      (Token.mk (if ispunct a then "PUNCTUATION" else "OPERATOR")
         (String a EmptyString) (int32 l) (int32 c) :: toks).

(** The input that remains to be read. *)
Definition rest (lx : Lexer.t) : string :=
  drop (Lexer.position lx) (Lexer.input lx).

(** The lexer state [k] characters further on the same line, [c] being
    the column it starts from. *)
Definition advance_by (lx : Lexer.t) (c : Z) (k : nat) : Lexer.t :=
  Lexer.mk (Lexer.input lx) (Lexer.position lx + k) (Lexer.line lx)
    (int32 (c + Z.of_nat k)).

(* ================================================================== *)
(** ** Parser methods *)

(** [wp m current Q]: run from [current], the method [m] reads no token
    out of bounds, and if it returns then [Q] holds of its value and of
    the new [current]. *)
Definition wp {A : Type} (m : M A) (current : nat) (Q : A -> nat -> Prop)
  : Prop :=
  match m current with
  | Ok (a, current') => Q a current'
  | OutOfBounds => False
  | OutOfFuel => True
  end.

Definition anything {A : Type} : A -> nat -> Prop := fun _ _ => True.

(** The tokens of ["int main() { return 0; }"]. *)
Definition main_tokens : list Token.t :=
  [ Token.mk "KEYWORD" "int" 1 1;
    Token.mk "IDENTIFIER" "main" 1 5;
    Token.mk "PUNCTUATION" "(" 1 9;
    Token.mk "PUNCTUATION" ")" 1 10;
    Token.mk "PUNCTUATION" "{" 1 12;
    Token.mk "KEYWORD" "return" 1 14;
    Token.mk "NUMBER" "0" 1 21;
    Token.mk "PUNCTUATION" ";" 1 22;
    Token.mk "PUNCTUATION" "}" 1 24 ].

(** The tokens of ["int x;"]. *)
Definition variable_tokens : list Token.t :=
  [ Token.mk "KEYWORD" "int" 1 1;
    Token.mk "IDENTIFIER" "x" 1 5;
    Token.mk "PUNCTUATION" ";" 1 6 ].

(* ################################################################## *)
(** * Part IV: proofs *)

(* ================================================================== *)
(** ** Facts about characters and strings *)

Ltac ascii_cases c :=
  destruct c as [[|] [|] [|] [|] [|] [|] [|] [|]]; vm_compute;
  try reflexivity; try discriminate; try congruence.

Lemma ident_start_is_ident_char c :
  Lexer.is_ident_start c = true -> Lexer.is_ident_char c = true.
Proof. ascii_cases c. Qed.

Lemma ident_char_not_space c :
  Lexer.is_ident_char c = true -> isspace c = false.
Proof. ascii_cases c. Qed.

Lemma number_char_not_space c :
  Lexer.is_number_char c = true -> isspace c = false.
Proof. ascii_cases c. Qed.

Lemma digit_is_number_char c :
  isdigit c = true -> Lexer.is_number_char c = true.
Proof. ascii_cases c. Qed.

Lemma digit_not_ident_start c :
  isdigit c = true -> Lexer.is_ident_start c = false.
Proof. ascii_cases c. Qed.

Lemma digit_not_space c : isdigit c = true -> isspace c = false.
Proof. ascii_cases c. Qed.

Lemma ident_start_not_space c :
  Lexer.is_ident_start c = true -> isspace c = false.
Proof. ascii_cases c. Qed.

Lemma newline_is_space : isspace newline = true.
Proof. reflexivity. Qed.

Lemma append_nil_r (s : string) : s +++ EmptyString = s.
Proof. induction s; simpl; congruence. Qed.

Lemma append_assoc (a b c : string) : (a +++ b) +++ c = a +++ b +++ c.
Proof. induction a; simpl; congruence. Qed.

Lemma length_append (a b : string) :
  String.length (a +++ b) = String.length a + String.length b.
Proof. induction a; simpl; congruence. Qed.

(** What [drop] exposes at index [n]: the character read there and the
    outcome of the bounds test. *)
Lemma drop_step (n : nat) (s : string) :
  match drop n s with
  | String c r =>
      n < String.length s /\ char_at s n = c /\ drop (S n) s = r
  | EmptyString => String.length s <= n
  end.
Proof.
  revert s; induction n as [|n IH]; intros [|c s]; simpl; try lia.
  - repeat split; lia.
  - specialize (IH s). unfold char_at in *. simpl.
    destruct (drop n s); [lia|].
    destruct IH as (? & ? & ?). repeat split; auto; lia.
Qed.

Lemma span_spec (p : ascii -> bool) (s w r : string) :
  span p s = (w, r) ->
  s = w +++ r /\ all_chars p w = true /\ starts_with p r = false.
Proof.
  revert w r; induction s as [|c s IH]; simpl; intros w r H.
  - inversion H; subst; auto.
  - destruct (p c) eqn:Hc.
    + destruct (span p s) as [w' r'] eqn:Hs. inversion H; subst.
      destruct (IH _ _ eq_refl) as (-> & ? & ?). simpl. rewrite Hc. auto.
    + inversion H; subst. simpl. auto.
Qed.

Lemma span_all (p : ascii -> bool) (w r : string) :
  all_chars p w = true -> starts_with p r = false -> span p (w +++ r) = (w, r).
Proof.
  intros Hw Hr. induction w as [|c w IH]; simpl in *.
  - destruct r as [|c r]; simpl in *; [reflexivity | now rewrite Hr].
  - apply andb_prop in Hw as [Hc Hw]. rewrite Hc, (IH Hw). reflexivity.
Qed.

Lemma all_chars_weaken (p q : ascii -> bool) (s : string) :
  (forall c, p c = true -> q c = true) ->
  all_chars p s = true -> all_chars q s = true.
Proof.
  intros Hpq. induction s as [|c s IH]; simpl; auto.
  intros H. apply andb_prop in H as [Hc Hs]. now rewrite (Hpq _ Hc), IH.
Qed.

Lemma filter_chars_append (p : ascii -> bool) (a b : string) :
  filter_chars p (a +++ b) = filter_chars p a +++ filter_chars p b.
Proof.
  induction a as [|c a IH]; simpl; auto. destruct (p c); simpl; congruence.
Qed.

Lemma filter_chars_all (p : ascii -> bool) (s : string) :
  all_chars p s = true -> filter_chars p s = s.
Proof.
  induction s as [|c s IH]; simpl; auto.
  intros H. apply andb_prop in H as [Hc Hs]. rewrite Hc, IH; auto.
Qed.

Lemma filter_count_length (p : ascii -> bool) (s : string) :
  String.length (filter_chars (fun c => negb (p c)) s) + count_chars p s
  = String.length s.
Proof.
  induction s as [|c s IH]; simpl; auto. destruct (p c); simpl; lia.
Qed.

Lemma total_lexeme_length_text tokens :
  total_lexeme_length tokens = String.length (lexeme_text tokens).
Proof.
  induction tokens as [|t ts IH]; simpl; auto.
  rewrite length_append. congruence.
Qed.

Lemma position_after_append pos a b :
  position_after pos (a +++ b) = position_after (position_after pos a) b.
Proof. revert pos; induction a; simpl; auto. Qed.

Lemma position_after_line l c w :
  all_chars nonspace w = true ->
  position_after (l, c) w = (l, (c + Z.of_nat (String.length w))%Z).
Proof.
  revert c; induction w as [|a w IH]; intros c H.
  - simpl. now rewrite Z.add_0_r.
  - cbn [all_chars] in H. apply andb_prop in H as [Ha Hw].
    cbn [position_after String.length]. unfold advance_pos.
    destruct (Ascii.eqb a newline) eqn:E.
    + apply Ascii.eqb_eq in E. subst a. discriminate Ha.
    + cbn [fst snd]. rewrite IH by assumption. f_equal. lia.
Qed.

Lemma ident_chars_nonspace w :
  all_chars Lexer.is_ident_char w = true -> all_chars nonspace w = true.
Proof.
  apply all_chars_weaken. intros c H. unfold nonspace.
  now rewrite (ident_char_not_space _ H).
Qed.

Lemma number_chars_nonspace w :
  all_chars Lexer.is_number_char w = true -> all_chars nonspace w = true.
Proof.
  apply all_chars_weaken. intros c H. unfold nonspace.
  now rewrite (number_char_not_space _ H).
Qed.

Lemma nonspace_not_newline c :
  isspace c = false -> Ascii.eqb c newline = false.
Proof.
  intros H. apply Ascii.eqb_neq. intros ->. discriminate H.
Qed.

(* ================================================================== *)
(** ** [int] arithmetic *)

Lemma int32_incr z : int_incr (int32 z) = int32 (z + 1).
Proof.
  unfold int_incr, int32.
  replace ((z + 2147483648) mod 4294967296 - 2147483648 + 1 + 2147483648)%Z
    with ((z + 2147483648) mod 4294967296 + 1)%Z by lia.
  rewrite Zplus_mod_idemp_l. do 2 f_equal. lia.
Qed.

Lemma int32_small z :
  (-2147483648 <= z <= int_max)%Z -> int32 z = z.
Proof.
  unfold int32, int_max. intros H. rewrite Z.mod_small; lia.
Qed.

(* ================================================================== *)
(** ** The lexer loop computes [Lexes] *)

Lemma Lexes_deterministic s l c toks1 :
  Lexes s l c toks1 -> forall toks2, Lexes s l c toks2 -> toks1 = toks2.
Proof.
  induction 1; intros toks2 HL; inversion HL; subst;
    try congruence;
    try (exfalso; match goal with H : isspace newline = false |- _ =>
           rewrite newline_is_space in H; discriminate end);
    try (f_equal; eauto; fail).
  - match goal with H1 : span _ _ = _, H3 : span _ _ = _ |- _ =>
      rewrite H1 in H3; inversion H3; subst end.
    f_equal. eauto.
  - match goal with H1 : span _ _ = _, H3 : span _ _ = _ |- _ =>
      rewrite H1 in H3; inversion H3; subst end.
    f_equal. eauto.
Qed.

Section LexerLoop.

Import Lexer.

Lemma rest_cons lx c r :
  rest lx = String c r ->
  in_input lx = true /\ current lx = c /\
  drop (S (position lx)) (input lx) = r.
Proof.
  unfold rest, in_input, current. intros H.
  pose proof (drop_step (position lx) (input lx)) as D. rewrite H in D.
  destruct D as (? & ? & ?). repeat split; auto.
  now apply Nat.ltb_lt.
Qed.

Lemma rest_nil lx : rest lx = EmptyString -> in_input lx = false.
Proof.
  unfold rest, in_input. intros H.
  pose proof (drop_step (position lx) (input lx)) as D. rewrite H in D.
  now apply Nat.ltb_ge.
Qed.

(** The inner loops stop exactly at the end of the longest run of
    characters satisfying [p]; [column] is incremented once per
    character of the run. *)
Lemma scan_spec (p : ascii -> bool) :
  forall fuel lx acc c,
    column lx = int32 c ->
    String.length (rest lx) < fuel ->
    scan p fuel lx acc
    = Some (advance_by lx c (String.length (fst (span p (rest lx)))),
            acc +++ fst (span p (rest lx)))
    /\ rest (advance_by lx c (String.length (fst (span p (rest lx)))))
       = snd (span p (rest lx)).
Proof.
  induction fuel as [|fuel IH]; intros lx acc c0 Hcol Hf; [lia|].
  simpl. destruct (rest lx) as [|c r] eqn:Hr.
  - rewrite (rest_nil _ Hr). simpl. unfold advance_by.
    rewrite Nat.add_0_r, Z.add_0_r, append_nil_r, <- Hcol.
    destruct lx; simpl. split; [reflexivity|]. exact Hr.
  - destruct (rest_cons _ _ _ Hr) as (Hin & Hc & Hd).
    rewrite Hin, Hc. simpl. destruct (p c) eqn:Hp.
    + set (lx1 := Lexer.mk (input lx) (S (position lx)) (line lx)
                    (int_incr (column lx))).
      assert (Hr1 : rest lx1 = r) by exact Hd.
      assert (Hcol1 : column lx1 = int32 (c0 + 1)).
      { unfold lx1. cbn [column]. rewrite Hcol. apply int32_incr. }
      destruct (IH lx1 (acc +++ String c EmptyString) (c0 + 1)%Z Hcol1)
        as [E1 E2].
      { rewrite Hr1. simpl in Hf. lia. }
      rewrite E1. rewrite Hr1 in *.
      destruct (span p r) as [w r'] eqn:Hs. simpl in *.
      assert (Ha : advance_by lx1 (c0 + 1) (String.length w)
                   = advance_by lx c0 (S (String.length w))).
      { unfold advance_by, lx1. simpl. f_equal; [lia|]. f_equal. lia. }
      rewrite Ha in *. split; [|exact E2].
      rewrite append_assoc. reflexivity.
    + simpl. unfold advance_by.
      rewrite Nat.add_0_r, Z.add_0_r, append_nil_r, <- Hcol.
      destruct lx; simpl. split; [reflexivity|]. exact Hr.
Qed.

Lemma span_progress (p : ascii -> bool) c s w r :
  p c = true -> span p (String c s) = (w, r) ->
  exists w', w = String c w' /\ String.length r <= String.length s.
Proof.
  simpl. intros Hp. rewrite Hp. destruct (span p s) as [w' r'] eqn:Hs.
  intros H; inversion H; subst. exists w'. split; [reflexivity|].
  apply span_spec in Hs as (-> & _ & _). rewrite length_append. lia.
Qed.

(** The outer loop computes [Lexes] on the remaining input, runs to the
    end of the input whenever the fuel exceeds the remaining length by
    two, and leaves in [line] and [column] the [int]s of the position
    where [position_after] arrives. *)
Lemma tokenize_loop_Lexes :
  forall fuel lx tokens l c,
    line lx = int32 l -> column lx = int32 c ->
    String.length (rest lx) + 2 <= fuel ->
    exists lx' toks,
      tokenize_loop fuel lx tokens = Some (lx', tokens ++ toks)
      /\ Lexes (rest lx) l c toks
      /\ rest lx' = EmptyString /\ input lx' = input lx
      /\ (line lx', column lx') = int_pos (position_after (l, c) (rest lx)).
Proof.
  induction fuel as [|fuel IH]; intros lx tokens l0 c0 Hl Hcol Hf; [lia|].
  simpl. destruct (rest lx) as [|c r] eqn:Hr.
  - rewrite (rest_nil _ Hr). exists lx, []. rewrite app_nil_r.
    repeat split; auto; [constructor|].
    unfold int_pos. simpl. now rewrite Hl, Hcol.
  - destruct (rest_cons _ _ _ Hr) as (Hin & Hc & Hd).
    rewrite Hin. unfold tokenize_body. cbv zeta. rewrite Hc.
    simpl in Hf.
    destruct (isspace c) eqn:Hsp.
    + destruct (Ascii.eqb c newline) eqn:Hnl; simpl.
      * set (lx1 := Lexer.mk _ _ _ _).
        assert (R1 : rest lx1 = r) by exact Hd.
        destruct (IH lx1 tokens (l0 + 1)%Z 1%Z)
          as (lx' & toks & E & L & R & I & P);
          [unfold lx1; cbn [line]; rewrite Hl; apply int32_incr
          |reflexivity|rewrite R1; lia|].
        exists lx', toks. rewrite E, P, R1. rewrite R1 in L.
        apply Ascii.eqb_eq in Hnl. rewrite Hnl.
        repeat split; auto. apply Lexes_newline; auto.
      * set (lx1 := Lexer.mk _ _ _ _).
        assert (R1 : rest lx1 = r) by exact Hd.
        destruct (IH lx1 tokens l0 (c0 + 1)%Z)
          as (lx' & toks & E & L & R & I & P);
          [exact Hl
          |unfold lx1; cbn [column]; rewrite Hcol; apply int32_incr
          |rewrite R1; lia|].
        exists lx', toks. rewrite E, P, R1. rewrite R1 in L.
        repeat split; auto.
        -- apply Ascii.eqb_neq in Hnl. apply Lexes_blank; auto.
        -- cbn [position_after]. unfold advance_pos. now rewrite Hnl.
    + change (isalpha c || Ascii.eqb c "_")%bool with (is_ident_start c).
      destruct (is_ident_start c) eqn:Hid; [|destruct (isdigit c) eqn:Hdg].
      * destruct (scan_spec is_ident_char fuel lx EmptyString c0 Hcol)
          as [E1 E2]; [rewrite Hr; simpl; lia|].
        rewrite E1. rewrite Hr in *.
        destruct (span is_ident_char (String c r)) as [w r'] eqn:Hs.
        cbn [fst snd] in *. simpl (EmptyString +++ w).
        destruct (span_progress _ _ _ _ _ (ident_start_is_ident_char _ Hid) Hs)
          as (w' & Hw & Hlen).
        destruct (span_spec _ _ _ _ Hs) as (Es & Hall & _).
        set (lx1 := advance_by lx c0 (String.length w)) in *.
        change (line lx1) with (line lx). rewrite Hl, Hcol.
        pose proof (Lexes_word c r l0 c0 w r') as LW.
        assert (Pw : position_after (l0, c0) (String c r)
                     = position_after
                         (l0, (c0 + Z.of_nat (String.length w))%Z) r').
        { rewrite Es, position_after_append, position_after_line;
            auto using ident_chars_nonspace. }
        destruct (isKeyword w);
          match goal with |- context [tokenize_loop fuel lx1 (tokens ++ [?T])] =>
            destruct (IH lx1 (tokens ++ [T]) l0
                        (c0 + Z.of_nat (String.length w))%Z)
              as (lx' & toks & E & L & R & I & P);
              [exact Hl|reflexivity|rewrite E2; lia|];
            exists lx', (T :: toks); rewrite E, <- app_assoc, P, E2, Pw;
            repeat split; auto; apply LW; auto; now rewrite <- E2
          end.
      * destruct (scan_spec is_number_char fuel lx EmptyString c0 Hcol)
          as [E1 E2]; [rewrite Hr; simpl; lia|].
        rewrite E1. rewrite Hr in *.
        destruct (span is_number_char (String c r)) as [w r'] eqn:Hs.
        cbn [fst snd] in *. simpl (EmptyString +++ w).
        destruct (span_progress _ _ _ _ _ (digit_is_number_char _ Hdg) Hs)
          as (w' & Hw & Hlen).
        destruct (span_spec _ _ _ _ Hs) as (Es & Hall & _).
        set (lx1 := advance_by lx c0 (String.length w)) in *.
        change (line lx1) with (line lx). rewrite Hl, Hcol.
        assert (Pw : position_after (l0, c0) (String c r)
                     = position_after
                         (l0, (c0 + Z.of_nat (String.length w))%Z) r').
        { rewrite Es, position_after_append, position_after_line;
            auto using number_chars_nonspace. }
        match goal with |- context [tokenize_loop fuel lx1 (tokens ++ [?T])] =>
          destruct (IH lx1 (tokens ++ [T]) l0
                      (c0 + Z.of_nat (String.length w))%Z)
            as (lx' & toks & E & L & R & I & P);
            [exact Hl|reflexivity|rewrite E2; lia|];
          exists lx', (T :: toks); rewrite E, <- app_assoc, P, E2, Pw;
          repeat split; auto;
          apply Lexes_number with (r := r'); auto; now rewrite <- E2
        end.
      * set (lx1 := Lexer.mk _ _ _ _).
        assert (R1 : rest lx1 = r) by exact Hd.
        rewrite Hl, Hcol.
        match goal with |- context [tokenize_loop fuel lx1 (tokens ++ [?T])] =>
          destruct (IH lx1 (tokens ++ [T]) l0 (c0 + 1)%Z)
            as (lx' & toks & E & L & R & I & P);
            [exact Hl
            |unfold lx1; cbn [column]; rewrite Hcol; apply int32_incr
            |rewrite R1; lia|];
          exists lx', (T :: toks); rewrite E, <- app_assoc, P, R1
        end.
        rewrite R1 in L. repeat split; auto.
        -- apply Lexes_symbol; auto.
        -- cbn [position_after]. unfold advance_pos.
           now rewrite (nonspace_not_newline _ Hsp).
Qed.

End LexerLoop.

(** [tokenize] returns exactly the token sequence [Lexes] describes. *)
Lemma tokenize_Lexes (source : string) (tokens : list Token.t) :
  Lexer.tokenize source = Some tokens <-> Lexes source 1%Z 1%Z tokens.
Proof.
  unfold Lexer.tokenize.
  destruct (tokenize_loop_Lexes (Lexer.fuel_for source) (Lexer.init source) []
              1%Z 1%Z eq_refl eq_refl)
    as (lx' & toks & E & L & _ & _).
  { unfold rest, Lexer.fuel_for; simpl. lia. }
  rewrite E. simpl in *. split.
  - intros H; inversion H; subst. exact L.
  - intros H. f_equal. eapply Lexes_deterministic; eauto.
Qed.

Lemma tokenize_total (source : string) :
  exists tokens, Lexer.tokenize source = Some tokens.
Proof.
  unfold Lexer.tokenize.
  destruct (tokenize_loop_Lexes (Lexer.fuel_for source) (Lexer.init source) []
              1%Z 1%Z eq_refl eq_refl)
    as (lx' & toks & E & _).
  { unfold rest, Lexer.fuel_for; simpl. lia. }
  rewrite E. eauto.
Qed.

(** More fuel changes nothing: the loop returns the same tokens for
    every fuel from the length of the input plus two on. *)
Lemma tokenize_fuel_irrelevant (source : string) (fuel : nat) tokens :
  String.length source + 2 <= fuel ->
  Lexer.tokenize source = Some tokens ->
  exists lx',
    Lexer.tokenize_loop fuel (Lexer.init source) [] = Some (lx', tokens).
Proof.
  intros Hf E. apply tokenize_Lexes in E.
  destruct (tokenize_loop_Lexes fuel (Lexer.init source) []
              1%Z 1%Z eq_refl eq_refl)
    as (lx' & toks & E' & L & _); [exact Hf|].
  exists lx'. rewrite E'. simpl in *.
  now rewrite (Lexes_deterministic _ _ _ _ L _ E).
Qed.

(* ================================================================== *)
(** ** Where tokens come from *)

Lemma occurs_skip a s l c toks i t :
  isspace a = true ->
  occurs_at s (fst (advance_pos (l, c) a)) (snd (advance_pos (l, c) a)) toks i t ->
  occurs_at (String a s) l c toks i t.
Proof.
  intros Ha (pre & post & E & P & F & Sh).
  exists (String a pre), post. repeat split; auto.
  - simpl. now rewrite E.
  - cbn [position_after]. rewrite P. f_equal.
    now destruct (advance_pos (l, c) a).
  - simpl. unfold nonspace at 1. now rewrite Ha.
Qed.

Lemma occurs_after w r l c T toks i t :
  Token.value T = w -> all_chars nonspace w = true ->
  occurs_at r l (c + Z.of_nat (String.length w))%Z toks i t ->
  occurs_at (w +++ r) l c (T :: toks) (S i) t.
Proof.
  intros HT Hw (pre & post & E & P & F & Sh).
  exists (w +++ pre), post. repeat split; auto.
  - now rewrite E, append_assoc.
  - now rewrite position_after_append, position_after_line.
  - rewrite filter_chars_append, filter_chars_all by assumption.
    simpl. now rewrite HT, F.
Qed.

Lemma Lexes_occurrence s l c toks :
  Lexes s l c toks ->
  forall i t, nth_error toks i = Some t -> occurs_at s l c toks i t.
Proof.
  induction 1 as [l c | s l c toks L IH | a s l c toks Ha Hn L IH
                 | a s l c w r toks Hsp Hid Hs L IH
                 | a s l c w r toks Hsp Hid Hdg Hs L IH
                 | a s l c toks Hsp Hid Hdg L IH]; intros i t Hi.
  - destruct i; discriminate.
  - apply occurs_skip; [reflexivity|]. simpl. now apply IH.
  - apply occurs_skip; [assumption|]. unfold advance_pos.
    apply Ascii.eqb_neq in Hn. rewrite Hn. simpl. now apply IH.
  - pose proof (ident_start_is_ident_char _ Hid) as Hic.
    destruct (span_progress _ _ _ _ _ Hic Hs) as (w' & -> & _).
    destruct (span_spec _ _ _ _ Hs) as (E & Hall & Hr).
    rewrite E. destruct i as [|i].
    + inversion Hi; subst t. exists EmptyString, r. repeat split; auto.
      unfold token_shape. simpl Token.value. left.
      cbn [all_chars] in Hall. apply andb_prop in Hall as [_ Hall].
      repeat split; auto.
    + apply occurs_after; auto using ident_chars_nonspace.
  - pose proof (digit_is_number_char _ Hdg) as Hnc.
    destruct (span_progress _ _ _ _ _ Hnc Hs) as (w' & -> & _).
    destruct (span_spec _ _ _ _ Hs) as (E & Hall & Hr).
    rewrite E. destruct i as [|i].
    + inversion Hi; subst t. exists EmptyString, r. repeat split; auto.
      unfold token_shape. simpl Token.value. right; left.
      cbn [all_chars] in Hall. apply andb_prop in Hall as [_ Hall].
      repeat split; auto.
    + apply occurs_after; auto using number_chars_nonspace.
  - destruct i as [|i].
    + inversion Hi; subst t. exists EmptyString, s. repeat split; auto.
      unfold token_shape. simpl Token.value. right; right.
      repeat split; auto.
    + change (String a s) with (String a EmptyString +++ s).
      apply occurs_after; [reflexivity| |now apply IH].
      simpl. unfold nonspace. now rewrite Hsp.
Qed.

Lemma Lexes_text s l c toks :
  Lexes s l c toks -> lexeme_text toks = filter_chars nonspace s.
Proof.
  induction 1 as [l c | s l c toks L IH | a s l c toks Ha Hn L IH
                 | a s l c w r toks Hsp Hid Hs L IH
                 | a s l c w r toks Hsp Hid Hdg Hs L IH
                 | a s l c toks Hsp Hid Hdg L IH].
  - reflexivity.
  - simpl. exact IH.
  - simpl. unfold nonspace at 1. now rewrite Ha.
  - destruct (span_spec _ _ _ _ Hs) as (E & Hall & _). rewrite E.
    rewrite filter_chars_append, filter_chars_all
      by now apply ident_chars_nonspace.
    simpl. now rewrite IH.
  - destruct (span_spec _ _ _ _ Hs) as (E & Hall & _). rewrite E.
    rewrite filter_chars_append, filter_chars_all
      by now apply number_chars_nonspace.
    simpl. now rewrite IH.
  - simpl. unfold nonspace at 1. rewrite Hsp. simpl. now rewrite IH.
Qed.

Lemma token_shape_nonspace t post :
  token_shape t post -> all_chars nonspace (Token.value t) = true.
Proof.
  unfold token_shape. destruct (Token.value t) as [|a w]; [tauto|].
  intros [(Ha & Hw & _) | [(Ha & Hw & _) | (Ha & _ & _ & -> & _)]]; simpl.
  - unfold nonspace at 1. rewrite (ident_start_not_space _ Ha).
    now apply ident_chars_nonspace.
  - unfold nonspace at 1. rewrite (digit_not_space _ Ha).
    now apply number_chars_nonspace.
  - unfold nonspace. now rewrite Ha.
Qed.

(* ================================================================== *)
(** ** Reasoning about parser methods *)

Lemma wp_in_bounds {A : Type} (m : M A) current Q :
  wp m current Q -> m current <> OutOfBounds.
Proof. unfold wp. destruct (m current) as [[a c]| |]; easy. Qed.

Lemma in_bounds_wp {A : Type} (m : M A) current :
  m current <> OutOfBounds -> wp m current anything.
Proof. unfold wp, anything. destruct (m current) as [[a c]| |]; easy. Qed.

Lemma wp_ret {A : Type} (a : A) current (Q : A -> nat -> Prop) :
  Q a current -> wp (ret a) current Q.
Proof. exact (fun H => H). Qed.

Lemma wp_bind {A B : Type} (m : M A) (k : A -> M B) current Q :
  wp m current (fun a current' => wp (k a) current' Q) ->
  wp (bind m k) current Q.
Proof. unfold wp, bind. destruct (m current) as [[a c]| |]; easy. Qed.

Lemma wp_weaken {A : Type} (m : M A) current (P Q : A -> nat -> Prop) :
  wp m current P -> (forall a c, P a c -> Q a c) -> wp m current Q.
Proof. unfold wp. destruct (m current) as [[a c]| |]; auto. Qed.

Lemma wp_while {A : Type} (cond : M bool) (body : A -> M A) :
  (forall current,
      wp cond current
        (fun b current' => b = true -> forall a, wp (body a) current' anything)) ->
  forall fuel a current, wp (while fuel cond body a) current anything.
Proof.
  intros H. induction fuel as [|fuel IH]; intros a current; [exact I|].
  cbn [while]. apply wp_bind. eapply wp_weaken; [apply H|].
  intros [|] c Hb; [|exact I].
  apply wp_bind. eapply wp_weaken; [apply (Hb eq_refl)|].
  intros a' c' _. apply IH.
Qed.

Section ParserFacts.

Variable tokens : list Token.t.

(** A read guarded by [current < tokens.size() &&] is in bounds, and
    yields [false] past the end. *)
Lemma below_and_read (f : Token.t -> bool) current :
  (below_size tokens &&& (t <- token tokens ;; ret (f t))) current
  = Ok (match nth_error tokens current with
        | Some t => f t
        | None => false
        end, current).
Proof.
  unfold and_then, below_size, token, bind, ret.
  destruct (Nat.ltb_spec current (List.length tokens)) as [H|H].
  - apply nth_error_Some in H. now destruct (nth_error tokens current).
  - apply nth_error_None in H. now rewrite H.
Qed.

(** A read guarded by [current >= tokens.size() ||] is in bounds, and the
    test yields [true] past the end. *)
Lemma at_end_or_read (f : Token.t -> bool) current :
  (at_end tokens ||| (t <- token tokens ;; ret (f t))) current
  = Ok (match nth_error tokens current with
        | Some t => f t
        | None => true
        end, current).
Proof.
  unfold or_else, at_end, token, bind, ret.
  destruct (Nat.leb_spec (List.length tokens) current) as [H|H].
  - apply nth_error_None in H. now rewrite H.
  - apply nth_error_Some in H. now destruct (nth_error tokens current).
Qed.

Lemma value_next_at current t :
  nth_error tokens current = Some t ->
  value_next tokens current = Ok (Token.value t, S current).
Proof. intros H. unfold value_next, token, next, bind, ret. now rewrite H. Qed.

Lemma wp_below_and (f : Token.t -> bool) current :
  wp (below_size tokens &&& (t <- token tokens ;; ret (f t))) current
    (fun b current' => current' = current).
Proof. unfold wp. now rewrite below_and_read. Qed.

Lemma wp_at_end_or (f : Token.t -> bool) current :
  wp (at_end tokens ||| (t <- token tokens ;; ret (f t))) current
    (fun b current' =>
       current' = current /\ (b = false -> current < List.length tokens)).
Proof.
  unfold wp. rewrite at_end_or_read. split; [reflexivity|].
  intros Hb. apply nth_error_Some.
  destruct (nth_error tokens current); [discriminate|congruence].
Qed.

Lemma wp_token current (f : Token.t -> bool) :
  current < List.length tokens ->
  wp (t <- token tokens ;; ret (f t)) current
    (fun _ current' => current' = current).
Proof.
  intros H. apply nth_error_Some in H. unfold wp, token, bind, ret.
  now destruct (nth_error tokens current).
Qed.

Lemma wp_value_next current :
  current < List.length tokens ->
  wp (value_next tokens) current anything.
Proof.
  intros H. apply nth_error_Some in H.
  destruct (nth_error tokens current) as [t|] eqn:E; [|easy].
  unfold wp. now rewrite (value_next_at _ _ E).
Qed.

Lemma wp_when_next (b : bool) current : wp (when b next) current anything.
Proof. now destruct b. Qed.

Variable parseIfStatement : M ASTNode.t -> M (option ASTNode.t).
Variable parseReturnStatement : M (option ASTNode.t).
Variable parseExpressionStatement : M (option ASTNode.t).

Let parseDeclaration' :=
  parseDeclaration tokens parseIfStatement parseReturnStatement
    parseExpressionStatement.
Let parseBlock' :=
  parseBlock tokens parseIfStatement parseReturnStatement
    parseExpressionStatement.
Let parseStatement' :=
  parseStatement tokens parseIfStatement parseReturnStatement
    parseExpressionStatement.
Let parse' :=
  parse tokens parseIfStatement parseReturnStatement
    parseExpressionStatement.

(** *** Failed declarations keep what they consumed *)

Lemma parseDeclaration_no_keyword fuel current :
  (forall t, nth_error tokens current = Some t -> Token.type t <> "KEYWORD") ->
  parseDeclaration' fuel current = Ok (None, current).
Proof.
  intros H. unfold parseDeclaration', parseDeclaration, type_is_not.
  unfold bind at 1. rewrite at_end_or_read.
  destruct (nth_error tokens current) as [t|]; [|reflexivity].
  specialize (H t eq_refl). apply String.eqb_neq in H. now rewrite H.
Qed.

Lemma parseDeclaration_no_name fuel current t :
  nth_error tokens current = Some t -> Token.type t = "KEYWORD" ->
  (forall t', nth_error tokens (S current) = Some t' ->
              Token.type t' <> "IDENTIFIER") ->
  parseDeclaration' fuel current = Ok (None, S current).
Proof.
  intros Ht Hk H. unfold parseDeclaration', parseDeclaration, type_is_not.
  unfold bind at 1. rewrite at_end_or_read, Ht, Hk, String.eqb_refl.
  cbn [negb].
  unfold bind at 1. rewrite (value_next_at _ _ Ht).
  unfold bind at 1. rewrite at_end_or_read.
  destruct (nth_error tokens (S current)) as [t'|]; [|reflexivity].
  specialize (H t' eq_refl). apply String.eqb_neq in H. now rewrite H.
Qed.

Lemma parseDeclaration_no_paren fuel current t_type t_name :
  nth_error tokens current = Some t_type ->
  Token.type t_type = "KEYWORD" ->
  nth_error tokens (S current) = Some t_name ->
  Token.type t_name = "IDENTIFIER" ->
  (forall t, nth_error tokens (S (S current)) = Some t ->
             Token.value t <> "(") ->
  parseDeclaration' fuel current = Ok (None, S (S current)).
Proof.
  intros Ht Hk Hn Hi H. unfold parseDeclaration', parseDeclaration, type_is_not.
  unfold bind at 1. rewrite at_end_or_read, Ht, Hk, String.eqb_refl.
  cbn [negb].
  unfold bind at 1. rewrite (value_next_at _ _ Ht).
  unfold bind at 1. rewrite at_end_or_read, Hn, Hi, String.eqb_refl.
  cbn [negb].
  unfold bind at 1. rewrite (value_next_at _ _ Hn).
  unfold value_is. unfold bind at 1. rewrite below_and_read.
  destruct (nth_error tokens (S (S current))) as [t|]; [|reflexivity].
  specialize (H t eq_refl). apply String.eqb_neq in H. now rewrite H.
Qed.

(** *** Every read is in bounds *)

Lemma wp_at_end current :
  wp (at_end tokens) current
    (fun b current' =>
       current' = current /\ (b = false -> current < List.length tokens)).
Proof.
  unfold wp, at_end. split; [reflexivity|]. now intros H%Nat.leb_gt.
Qed.

Lemma wp_below_size current :
  wp (below_size tokens) current (fun b current' => current' = current).
Proof. reflexivity. Qed.

Lemma wp_next current : wp next current anything.
Proof. exact I. Qed.

(** [if (current < tokens.size() && tokens[current].value == v) current++] *)
Lemma wp_skip_if (v : string) {A : Type} (k : M A) current :
  (forall c, wp k c anything) ->
  wp (b <- below_size tokens &&& value_is tokens v ;; when b next ;; k)
    current anything.
Proof.
  intros Hk. apply wp_bind. eapply wp_weaken; [apply wp_below_and|].
  intros b c _. apply wp_bind. eapply wp_weaken; [apply wp_when_next|].
  intros _ c' _. apply Hk.
Qed.

(** The statement parsers that the source does not define read no token
    out of bounds when entered, as [parseStatement] enters them, with
    [current] inside the token sequence. *)
Hypothesis parseIfStatement_in_bounds :
  forall (parseBlock : M ASTNode.t) current,
    (forall c, parseBlock c <> OutOfBounds) ->
    current < List.length tokens ->
    parseIfStatement parseBlock current <> OutOfBounds.
Hypothesis parseReturnStatement_in_bounds :
  forall current,
    current < List.length tokens ->
    parseReturnStatement current <> OutOfBounds.
Hypothesis parseExpressionStatement_in_bounds :
  forall current,
    current < List.length tokens ->
    parseExpressionStatement current <> OutOfBounds.

Lemma wp_parseStatement_body (parseBlock : M ASTNode.t) :
  (forall c, wp parseBlock c anything) ->
  forall current,
    wp (parseStatement_body tokens parseIfStatement parseReturnStatement
          parseExpressionStatement parseBlock) current anything.
Proof.
  intros Hb current. unfold parseStatement_body.
  apply wp_bind. eapply wp_weaken; [apply wp_at_end|].
  intros [|] c [-> Hlt]; [exact I|]. specialize (Hlt eq_refl).
  assert (Hexpr : wp (stmt <- parseExpressionStatement ;;
                      b <- below_size tokens &&& value_is tokens ";" ;;
                      when b next ;; ret stmt) current anything).
  { apply wp_bind.
    eapply wp_weaken;
      [apply in_bounds_wp, parseExpressionStatement_in_bounds, Hlt|].
    intros stmt c _. apply wp_skip_if. intros c'. exact I. }
  apply wp_bind. eapply wp_weaken; [apply wp_token, Hlt|].
  intros [|] c ->; [|exact Hexpr].
  apply wp_bind. eapply wp_weaken; [apply wp_token, Hlt|].
  intros [|] c ->.
  { apply in_bounds_wp, parseIfStatement_in_bounds; [|exact Hlt].
    intros c. eapply wp_in_bounds, Hb. }
  apply wp_bind. eapply wp_weaken; [apply wp_token, Hlt|].
  intros [|] c ->; [|exact Hexpr].
  apply in_bounds_wp, parseReturnStatement_in_bounds, Hlt.
Qed.

Lemma wp_parseBlock_parseStatement fuel :
  (forall current, wp (parseBlock' fuel) current anything)
  /\ (forall current, wp (parseStatement' fuel) current anything).
Proof.
  unfold parseBlock', parseStatement'.
  induction fuel as [|fuel [IHb IHs]]; [split; intros; exact I|].
  split; intros current.
  - cbn [parseBlock]. apply wp_bind.
    eapply wp_weaken; [|intros block c _; apply wp_skip_if; intros; exact I].
    apply wp_while. intros c. unfold value_is_not.
    eapply wp_weaken; [apply wp_below_and|].
    intros b c' _ _ block. apply wp_bind.
    eapply wp_weaken; [apply IHs|]. intros; exact I.
  - cbn [parseStatement]. now apply wp_parseStatement_body.
Qed.

Lemma wp_parseDeclaration fuel current :
  wp (parseDeclaration' fuel) current anything.
Proof.
  unfold parseDeclaration', parseDeclaration, type_is_not.
  apply wp_bind. eapply wp_weaken; [apply wp_at_end_or|].
  intros [|] c [-> Hlt]; [exact I|]. specialize (Hlt eq_refl).
  apply wp_bind. eapply wp_weaken; [apply wp_value_next, Hlt|].
  intros _ c _.
  apply wp_bind. eapply wp_weaken; [apply wp_at_end_or|].
  intros [|] c' [-> Hlt']; [exact I|]. specialize (Hlt' eq_refl).
  apply wp_bind. eapply wp_weaken; [apply wp_value_next, Hlt'|].
  intros name c' _.
  apply wp_bind. eapply wp_weaken; [apply wp_below_and|].
  intros [|] c'' _; [|exact I].
  apply wp_bind. eapply wp_weaken; [apply wp_next|]. intros _ c1 _.
  apply wp_bind. eapply wp_weaken.
  { apply wp_while. intros c2. unfold value_is_not.
    eapply wp_weaken; [apply wp_below_and|]. intros; exact I. }
  intros _ c2 _. apply wp_skip_if. intros c3.
  apply wp_bind. eapply wp_weaken; [apply wp_below_and|].
  intros [|] c4 _; [|exact I].
  apply wp_bind. eapply wp_weaken; [apply wp_next|]. intros _ c5 _.
  apply wp_bind.
  eapply wp_weaken; [apply (proj1 (wp_parseBlock_parseStatement fuel))|].
  intros; exact I.
Qed.

Lemma wp_parse fuel current : wp (parse' fuel) current anything.
Proof.
  unfold parse', parse. apply wp_while. intros c.
  eapply wp_weaken; [apply wp_below_size|].
  intros b c' _ _ root. apply wp_bind.
  eapply wp_weaken; [apply wp_parseDeclaration|]. intros; exact I.
Qed.

End ParserFacts.

(* ================================================================== *)
(** ** Properties of the lexer *)

Lemma isKeyword_spec (word : string) :
  Lexer.isKeyword word = true <-> In word keyword_set.
Proof.
  unfold Lexer.isKeyword, Lexer.keywords, keyword_set. cbn [find fst].
  split.
  - repeat match goal with
           | |- context [String.eqb ?k word] =>
               destruct (String.eqb_spec k word); [subst; simpl; tauto|]
           end.
    discriminate.
  - intros H. repeat (destruct H as [H|H]; [subst; reflexivity|]).
    destruct H.
Qed.

(** The first token of an input that starts an identifier. *)
Lemma tokenize_starts_word (source : string) :
  starts_with Lexer.is_ident_start source = true ->
  exists tokens,
    Lexer.tokenize source
    = Some (Token.mk
              (if Lexer.isKeyword (fst (span Lexer.is_ident_char source))
               then "KEYWORD" else "IDENTIFIER")
              (fst (span Lexer.is_ident_char source)) 1 1 :: tokens).
Proof.
  intros Hs. destruct (tokenize_total source) as [tokens E].
  pose proof (proj1 (tokenize_Lexes _ _) E) as L.
  destruct source as [|a s]; [discriminate|]. cbn [starts_with] in Hs.
  pose proof (ident_start_not_space _ Hs) as Hsp.
  inversion L; subst; try congruence.
  - rewrite newline_is_space in Hsp. discriminate.
  - match goal with H : span _ _ = _ |- _ => rewrite H end.
    cbn [fst]. eauto.
Qed.

(** The first token of an input that starts with a digit. *)
Lemma tokenize_starts_number (source : string) :
  starts_with isdigit source = true ->
  exists r tokens,
    span Lexer.is_number_char source
    = (fst (span Lexer.is_number_char source), r)
    /\ Lexes r 1%Z
         (1 + Z.of_nat (String.length (fst (span Lexer.is_number_char source))))%Z
         tokens
    /\ Lexer.tokenize source
       = Some (Token.mk "NUMBER" (fst (span Lexer.is_number_char source)) 1 1
                 :: tokens).
Proof.
  intros Hs. destruct (tokenize_total source) as [tokens E].
  pose proof (proj1 (tokenize_Lexes _ _) E) as L.
  destruct source as [|a s]; [discriminate|]. cbn [starts_with] in Hs.
  pose proof (digit_not_space _ Hs) as Hsp.
  pose proof (digit_not_ident_start _ Hs) as Hid.
  inversion L; subst; try congruence.
  rewrite newline_is_space in Hsp. discriminate.
  match goal with H : span _ _ = _ |- _ => rewrite H end.
  cbn [fst]. eauto.
Qed.

Lemma token_shape_end t post : token_shape t post -> token_shape t EmptyString.
Proof.
  unfold token_shape. destruct (Token.value t) as [|a w]; [tauto|].
  intros [(? & ? & _ & ?) | [(? & ? & _ & ?) | ?]]; auto 10.
Qed.

Lemma tokenize_occurrence source tokens i t :
  Lexer.tokenize source = Some tokens ->
  nth_error tokens i = Some t ->
  occurs_at source 1 1 tokens i t.
Proof.
  intros E Hi. apply tokenize_Lexes in E.
  eapply Lexes_occurrence; eauto.
Qed.

(** *** Tokenizing the lexemes again *)

Lemma relex_one t r kinds :
  token_shape t EmptyString ->
  starts_with Lexer.is_ident_char r = false ->
  starts_with Lexer.is_number_char r = false ->
  (forall l c, exists toks,
      Lexes r l c toks /\ map kind_and_lexeme toks = kinds) ->
  forall l c, exists toks,
    Lexes (Token.value t +++ r) l c toks
    /\ map kind_and_lexeme toks = kind_and_lexeme t :: kinds.
Proof.
  unfold token_shape.
  destruct (Token.value t) as [|a w] eqn:V; [tauto|].
  intros Sh Hr1 Hr2 Hrest l c.
  destruct Sh as [(Ha & Hw & _ & Ty) | [(Ha & Hw & _ & Ty)
                                       | (Hsp & Hid & Hdg & -> & Ty)]].
  - destruct (Hrest l (c + Z.of_nat (String.length (String a w)))%Z)
      as (toks & L & K).
    eexists. split.
    + cbn [String.append].
      apply Lexes_word with (w := String a w) (r := r) (toks := toks);
        auto using ident_start_not_space.
      change (String a (w +++ r)) with (String a w +++ r).
      apply span_all; auto. cbn [all_chars].
      now rewrite (ident_start_is_ident_char _ Ha), Hw.
    + cbn [map]. f_equal; [|exact K].
      unfold kind_and_lexeme. cbn [Token.type Token.value]. now rewrite Ty, V.
  - destruct (Hrest l (c + Z.of_nat (String.length (String a w)))%Z)
      as (toks & L & K).
    eexists. split.
    + cbn [String.append].
      apply Lexes_number with (w := String a w) (r := r) (toks := toks);
        auto using digit_not_space, digit_not_ident_start.
      change (String a (w +++ r)) with (String a w +++ r).
      apply span_all; auto. cbn [all_chars].
      now rewrite (digit_is_number_char _ Ha), Hw.
    + cbn [map]. f_equal; [|exact K].
      unfold kind_and_lexeme. cbn [Token.type Token.value]. now rewrite Ty, V.
  - destruct (Hrest l (c + 1)%Z) as (toks & L & K).
    eexists. split.
    + cbn [String.append]. apply Lexes_symbol; eauto.
    + cbn [map]. f_equal; [|exact K].
      unfold kind_and_lexeme. cbn [Token.type Token.value]. now rewrite Ty, V.
Qed.

Lemma relex tokens :
  Forall (fun t => token_shape t EmptyString) tokens ->
  forall l c, exists toks,
    Lexes (join_lexemes tokens) l c toks
    /\ map kind_and_lexeme toks = map kind_and_lexeme tokens.
Proof.
  unfold join_lexemes.
  induction 1 as [|t ts Ht Hts IH]; intros l c.
  - exists []. split; [constructor|reflexivity].
  - destruct ts as [|t2 ts].
    + cbn [map String.concat].
      rewrite <- (append_nil_r (Token.value t)).
      apply relex_one; [exact Ht|reflexivity|reflexivity|].
      intros l' c'. exists []. split; [constructor|reflexivity].
    + change (String.concat " " (map Token.value (t :: t2 :: ts)))
        with (Token.value t
              +++ String " " (String.concat " " (map Token.value (t2 :: ts)))).
      apply relex_one; [exact Ht|reflexivity|reflexivity|].
      intros l' c'. destruct (IH l' (c' + 1)%Z) as (toks & L & K).
      exists toks. split; [|exact K].
      apply Lexes_blank; [reflexivity|discriminate|exact L].
Qed.

(** What the fallback branch does with any character that is neither
    white space nor the start of an identifier or of a number. *)
Lemma tokenize_symbol (a : ascii) :
  isspace a = false -> Lexer.is_ident_start a = false -> isdigit a = false ->
  Lexer.tokenize (String a EmptyString)
  = Some [Token.mk (if ispunct a then "PUNCTUATION" else "OPERATOR")
            (String a EmptyString) 1 1].
Proof.
  intros. apply tokenize_Lexes. apply Lexes_symbol; auto. constructor.
Qed.

(** C1 (as the code behaves): each of the operator characters
    [+ - * / % = < > !], alone in the input, is consumed as one token,
    and that token is classified PUNCTUATION, not OPERATOR: [ispunct]
    holds of every one of them. *)
Theorem operator_characters_lex_as_punctuation :
  Forall (fun a =>
            Lexer.tokenize (String a EmptyString)
            = Some [Token.mk "PUNCTUATION" (String a EmptyString) 1 1])
         (list_ascii_of_string "+-*/%=<>!").
Proof. repeat constructor. Qed.

(** C3: [tokenize] returns a token sequence for every input, and the
    lexemes account for every character exactly once: their lengths and
    the number of white-space characters of the input add up to the
    length of the input, the lexemes written one after the other are the
    input with its white space removed, and no lexeme is empty or
    contains white space. *)
Theorem tokenize_covers_input (source : string) :
  exists tokens,
    Lexer.tokenize source = Some tokens
    /\ total_lexeme_length tokens + count_chars isspace source
       = String.length source
    /\ lexeme_text tokens = filter_chars nonspace source
    /\ Forall (fun t => Token.value t <> EmptyString
                        /\ all_chars nonspace (Token.value t) = true) tokens.
Proof.
  destruct (tokenize_total source) as [tokens E]. exists tokens.
  pose proof (proj1 (tokenize_Lexes _ _) E) as L.
  pose proof (Lexes_text _ _ _ _ L) as T.
  repeat split; auto.
  - rewrite total_lexeme_length_text, T. apply filter_count_length.
  - apply Forall_forall. intros t Ht.
    destruct (In_nth_error _ _ Ht) as [i Hi].
    destruct (tokenize_occurrence _ _ _ _ E Hi) as (pre & post & _ & _ & _ & Sh).
    split; [|eapply token_shape_nonspace; eauto].
    unfold token_shape in Sh. now destruct (Token.value t).
Qed.

(** C5: a token whose lexeme starts with a letter or [_] is a maximal
    run of letters, digits and [_] of the input, and its type is KEYWORD
    exactly when the whole lexeme is one of the eleven keywords and
    IDENTIFIER otherwise; an input that starts with a letter or [_]
    yields first the token of its longest such prefix; ["int"] is one
    KEYWORD token and ["printf2"] one IDENTIFIER token. *)
Theorem keyword_iff_exact_lexeme :
  (forall source tokens i t,
      Lexer.tokenize source = Some tokens ->
      nth_error tokens i = Some t ->
      starts_with Lexer.is_ident_start (Token.value t) = true ->
      (Token.type t = "KEYWORD" <-> In (Token.value t) keyword_set)
      /\ (Token.type t = "IDENTIFIER" <-> ~ In (Token.value t) keyword_set)
      /\ exists pre post,
           source = pre +++ Token.value t +++ post
           /\ all_chars Lexer.is_ident_char (Token.value t) = true
           /\ starts_with Lexer.is_ident_char post = false)
  /\ (forall source,
         starts_with Lexer.is_ident_start source = true ->
         exists tokens,
           Lexer.tokenize source
           = Some (Token.mk
                     (if Lexer.isKeyword (fst (span Lexer.is_ident_char source))
                      then "KEYWORD" else "IDENTIFIER")
                     (fst (span Lexer.is_ident_char source)) 1 1 :: tokens))
  /\ Lexer.tokenize "int" = Some [Token.mk "KEYWORD" "int" 1 1]
  /\ Lexer.tokenize "printf2" = Some [Token.mk "IDENTIFIER" "printf2" 1 1].
Proof.
  split; [|split; [exact tokenize_starts_word|split; reflexivity]].
  intros source tokens i t E Hi Hs.
  destruct (tokenize_occurrence _ _ _ _ E Hi) as (pre & post & Es & _ & _ & Sh).
  unfold token_shape in Sh.
  destruct (Token.value t) as [|a w] eqn:V; [tauto|]. cbn [starts_with] in Hs.
  destruct Sh as [(Ha & Hw & Hp & Ty) | [(Ha & _) | (_ & Ha & _)]].
  - rewrite <- isKeyword_spec, Ty.
    repeat split.
    + destruct (Lexer.isKeyword (String a w)); [reflexivity|discriminate].
    + intros ->. reflexivity.
    + destruct (Lexer.isKeyword (String a w)); [discriminate|auto].
    + destruct (Lexer.isKeyword (String a w)); [intros H; now elim H|reflexivity].
    + exists pre, post. repeat split; auto. cbn [all_chars].
      now rewrite (ident_start_is_ident_char _ Ha), Hw.
  - rewrite (digit_not_ident_start _ Ha) in Hs. discriminate.
  - congruence.
Qed.

Lemma keyword_iff_exact_lexeme_witness :
  (Token.type (Token.mk "IDENTIFIER" "printf2" 1 1) = "IDENTIFIER"
   <-> ~ In "printf2" keyword_set)
  /\ (Token.type (Token.mk "KEYWORD" "int" 1 1) = "KEYWORD"
      <-> In "int" keyword_set).
Proof.
  split.
  - exact (proj1 (proj2
      (proj1 keyword_iff_exact_lexeme "printf2"
         [Token.mk "IDENTIFIER" "printf2" 1 1] 0
         (Token.mk "IDENTIFIER" "printf2" 1 1) eq_refl eq_refl eq_refl))).
  - exact (proj1
      (proj1 keyword_iff_exact_lexeme "int"
         [Token.mk "KEYWORD" "int" 1 1] 0
         (Token.mk "KEYWORD" "int" 1 1) eq_refl eq_refl eq_refl)).
Defined.

(** Counting from line 1, column 1, no position lies further than the
    length of the text from where it started. *)
Lemma position_after_bounds s :
  forall l c, (1 <= l)%Z -> (1 <= c)%Z ->
    (1 <= fst (position_after (l, c) s) <= l + Z.of_nat (String.length s))%Z
    /\ (1 <= snd (position_after (l, c) s) <= c + Z.of_nat (String.length s))%Z.
Proof.
  induction s as [|a s IH]; intros l c Hl Hc.
  - simpl. lia.
  - cbn [position_after String.length]. unfold advance_pos.
    destruct (Ascii.eqb a newline); cbn [fst snd].
    + destruct (IH (l + 1)%Z 1%Z) as [? ?]; lia.
    + destruct (IH l (c + 1)%Z) as [? ?]; lia.
Qed.

(** On an input that fits, the [int]s hold the positions themselves. *)
Lemma int_pos_fits source pre :
  fits_int source -> String.length pre <= String.length source ->
  int_pos (position_after (1, 1)%Z pre) = position_after (1, 1)%Z pre.
Proof.
  unfold fits_int. intros Hs Hp.
  destruct (position_after_bounds pre 1 1) as [Hl Hc]; [lia..|].
  unfold int_pos. destruct (position_after (1, 1)%Z pre) as [l c].
  cbn [fst snd] in *. rewrite !int32_small; [reflexivity|lia..].
Qed.

Lemma prefix_length (source pre rest : string) :
  source = pre +++ rest -> String.length pre <= String.length source.
Proof. intros ->. rewrite length_append. lia. Qed.

(** The lexer itself ends at the position of the end of the input. *)
Lemma tokenize_final_position (source : string) :
  exists lx' tokens,
    Lexer.tokenize_loop (Lexer.fuel_for source) (Lexer.init source) []
    = Some (lx', tokens)
    /\ (Lexer.line lx', Lexer.column lx')
       = int_pos (position_after (1, 1)%Z source)
    /\ (fits_int source ->
        (Lexer.line lx', Lexer.column lx') = position_after (1, 1)%Z source).
Proof.
  destruct (tokenize_loop_Lexes (Lexer.fuel_for source) (Lexer.init source) []
              1%Z 1%Z eq_refl eq_refl)
    as (lx' & toks & E & _ & _ & _ & P).
  { unfold rest, Lexer.fuel_for; simpl. lia. }
  exists lx', toks. split; [exact E|]. split; [exact P|].
  intros Hfit. rewrite P. apply (int_pos_fits source); auto.
Qed.

(** C6: positions start at line 1, column 1; a newline moves to column 1
    of the next line and any other character one column on
    ([position_after]); every token records the position reached after
    the text [pre] that precedes its lexeme in the input, where [pre]
    holds exactly the lexemes of the earlier tokens and white space; the
    lexer's own [line] and [column] end at the position reached after the
    whole input.  Line and column are [int]s: on every input they hold
    the [int]s of that position ([int_pos]), and on an input of fewer
    than 2147483647 characters ([fits_int]) the position itself.  The
    input [a], newline, [b] gives [a] at line 1, column 1 and [b] at
    line 2, column 1. *)
Theorem tokenize_tracks_positions :
  (forall source tokens i t,
      Lexer.tokenize source = Some tokens ->
      nth_error tokens i = Some t ->
      exists pre post,
        source = pre +++ Token.value t +++ post
        /\ filter_chars nonspace pre = lexeme_text (firstn i tokens)
        /\ (Token.line t, Token.column t)
           = int_pos (position_after (1, 1)%Z pre)
        /\ (fits_int source ->
            (Token.line t, Token.column t) = position_after (1, 1)%Z pre))
  /\ (forall source,
         exists lx' tokens,
           Lexer.tokenize_loop (Lexer.fuel_for source) (Lexer.init source) []
           = Some (lx', tokens)
           /\ (Lexer.line lx', Lexer.column lx')
              = int_pos (position_after (1, 1)%Z source)
           /\ (fits_int source ->
               (Lexer.line lx', Lexer.column lx')
               = position_after (1, 1)%Z source))
  /\ Lexer.tokenize ("a" +++ String newline "b")
     = Some [Token.mk "IDENTIFIER" "a" 1 1; Token.mk "IDENTIFIER" "b" 2 1].
Proof.
  split; [|split; [exact tokenize_final_position|reflexivity]].
  intros source tokens i t E Hi.
  destruct (tokenize_occurrence _ _ _ _ E Hi) as (pre & post & Es & P & F & _).
  exists pre, post. repeat split; auto.
  intros Hfit. rewrite P. apply (int_pos_fits source); auto.
  now apply prefix_length with (rest := Token.value t +++ post).
Qed.

Lemma tokenize_tracks_positions_witness :
  exists pre post,
    "a" +++ String newline "b" = pre +++ "b" +++ post
    /\ filter_chars nonspace pre = "a"
    /\ (2, 1)%Z = position_after (1, 1)%Z pre.
Proof.
  destruct (proj1 tokenize_tracks_positions ("a" +++ String newline "b")
              [Token.mk "IDENTIFIER" "a" 1 1; Token.mk "IDENTIFIER" "b" 2 1]
              1 (Token.mk "IDENTIFIER" "b" 2 1) eq_refl eq_refl)
    as (pre & post & Es & F & _ & P).
  exists pre, post. split; [exact Es|]. split; [exact F|].
  exact (P eq_refl).
Defined.

(** Past the largest [int] the counters wrap around: the columns of a
    line count in [int] arithmetic, and a word after 2147483647 blanks
    has the column -2147483648. *)
Lemma Lexes_blanks n :
  forall s l c toks,
    Lexes s l (c + Z.of_nat n)%Z toks -> Lexes (blanks n +++ s) l c toks.
Proof.
  induction n as [|n IH]; intros s l c toks L.
  - simpl. now rewrite Z.add_0_r in L.
  - cbn [blanks String.append]. apply Lexes_blank; [reflexivity|discriminate|].
    apply IH. now replace (c + 1 + Z.of_nat n)%Z with (c + Z.of_nat (S n))%Z
      by lia.
Qed.

Lemma column_after_blanks n :
  Lexer.tokenize (blanks n +++ "a")
  = Some [Token.mk "IDENTIFIER" "a" 1 (int32 (1 + Z.of_nat n))].
Proof.
  apply tokenize_Lexes, Lexes_blanks.
  exact (Lexes_word "a" EmptyString 1 (1 + Z.of_nat n) "a" EmptyString []
           eq_refl eq_refl eq_refl (Lexes_end _ _)).
Qed.

Lemma column_wraps_around n :
  Z.of_nat n = int_max ->
  Lexer.tokenize (blanks n +++ "a")
  = Some [Token.mk "IDENTIFIER" "a" 1 (-2147483648)].
Proof.
  intros H. rewrite column_after_blanks, H. reflexivity.
Qed.

(** C7: an input that starts with a digit yields first one NUMBER token
    whose lexeme is the longest prefix of digits and [.] characters,
    however many [.] it holds; when the whole input consists of such
    characters that token is the only one; ["3.14.5"] is one NUMBER token
    with lexeme ["3.14.5"]. *)
Theorem number_lexeme_is_greedy :
  (forall source,
      starts_with isdigit source = true ->
      exists tokens,
        Lexer.tokenize source
        = Some (Token.mk "NUMBER" (fst (span Lexer.is_number_char source)) 1 1
                  :: tokens))
  /\ (forall source,
         starts_with isdigit source = true ->
         all_chars Lexer.is_number_char source = true ->
         Lexer.tokenize source = Some [Token.mk "NUMBER" source 1 1])
  /\ Lexer.tokenize "3.14.5" = Some [Token.mk "NUMBER" "3.14.5" 1 1].
Proof.
  split; [|split; [|reflexivity]].
  - intros source Hs.
    destruct (tokenize_starts_number _ Hs) as (r & tokens & _ & _ & E). eauto.
  - intros source Hs Hall.
    destruct (tokenize_starts_number _ Hs) as (r & tokens & Sp & L & E).
    rewrite E.
    pose proof (span_all Lexer.is_number_char source EmptyString Hall eq_refl)
      as Sa.
    rewrite append_nil_r in Sa. rewrite Sa in Sp, L |- *.
    cbn [fst] in *. inversion Sp; subst r. inversion L; subst. reflexivity.
Qed.

Lemma number_lexeme_is_greedy_witness :
  Lexer.tokenize "3.14.5" = Some [Token.mk "NUMBER" "3.14.5" 1 1]
  /\ exists tokens,
       Lexer.tokenize "1.2.3+4"
       = Some (Token.mk "NUMBER"
                 (fst (span Lexer.is_number_char "1.2.3+4")) 1 1 :: tokens).
Proof.
  split.
  - exact (proj1 (proj2 number_lexeme_is_greedy) "3.14.5" eq_refl eq_refl).
  - exact (proj1 number_lexeme_is_greedy "1.2.3+4" eq_refl).
Defined.

(** C8: for every input, tokenizing the lexemes of its tokens, joined in
    order by single spaces, gives tokens with the same types and lexemes
    as the original ones. *)
Theorem retokenize_joined_lexemes (source : string) :
  exists tokens tokens',
    Lexer.tokenize source = Some tokens
    /\ Lexer.tokenize (join_lexemes tokens) = Some tokens'
    /\ map kind_and_lexeme tokens' = map kind_and_lexeme tokens.
Proof.
  destruct (tokenize_total source) as [tokens E].
  assert (Sh : Forall (fun t => token_shape t EmptyString) tokens).
  { apply Forall_forall. intros t Ht.
    destruct (In_nth_error _ _ Ht) as [i Hi].
    destruct (tokenize_occurrence _ _ _ _ E Hi) as (pre & post & _ & _ & _ & S).
    eapply token_shape_end; eauto. }
  destruct (relex _ Sh 1%Z 1%Z) as (tokens' & L & K).
  exists tokens, tokens'. repeat split; auto.
  now apply tokenize_Lexes.
Qed.

(* ================================================================== *)
(** ** Properties of the parser *)

Lemma while_no_progress {A : Type} (cond : M bool) (body : A -> M A) current :
  cond current = Ok (true, current) ->
  (forall a, exists a', body a current = Ok (a', current)) ->
  forall fuel a, while fuel cond body a current = OutOfFuel.
Proof.
  intros Hc Hb. induction fuel as [|fuel IH]; intros a; [reflexivity|].
  cbn [while]. unfold bind at 1. rewrite Hc.
  unfold bind at 1. destruct (Hb a) as [a' ->]. apply IH.
Qed.

(** The top-level loop cannot leave a token that is not a keyword:
    [parseDeclaration] returns without moving [current], and the loop
    condition still holds. *)
Lemma parse_stuck_at_non_keyword tokens pIf pRet pExpr current t :
  nth_error tokens current = Some t ->
  Token.type t <> "KEYWORD" ->
  forall fuel0 fuel root,
    while fuel (below_size tokens)
      (fun root =>
         node <- parseDeclaration tokens pIf pRet pExpr fuel0 ;;
         ret (ASTNode.push_back_if root node))
      root current
    = OutOfFuel.
Proof.
  intros Ht Hk fuel0. apply while_no_progress.
  - unfold below_size.
    assert (H : current < List.length tokens)
      by (apply nth_error_Some; congruence).
    apply Nat.ltb_lt in H. now rewrite H.
  - intros root. exists root. unfold bind.
    rewrite parseDeclaration_no_keyword; [reflexivity|].
    intros t' Ht'. congruence.
Qed.

(** C2 (as the code behaves): on the input ["x"], whose only token is an
    identifier, [parse] does not return, whatever the number of loop
    iterations allowed and whatever the undefined statement parsers do:
    [parseDeclaration] returns no node without consuming the token, so
    the top-level loop makes no progress. *)
Theorem parse_diverges_on_identifier :
  Lexer.tokenize "x" = Some [Token.mk "IDENTIFIER" "x" 1 1]
  /\ forall pIf pRet pExpr fuel,
       run_parse [Token.mk "IDENTIFIER" "x" 1 1] pIf pRet pExpr fuel
       = OutOfFuel.
Proof.
  split; [reflexivity|]. intros pIf pRet pExpr fuel.
  unfold run_parse, parse.
  rewrite (parse_stuck_at_non_keyword _ pIf pRet pExpr 0
             (Token.mk "IDENTIFIER" "x" 1 1)); [reflexivity..|discriminate].
Qed.

(** The same happens after a declaration that is not a function: on
    ["int x;"] the loop is stuck at the semicolon. *)
Lemma parse_diverges_on_variable_declaration :
  Lexer.tokenize "int x;" = Some variable_tokens
  /\ forall pIf pRet pExpr fuel,
       run_parse variable_tokens pIf pRet pExpr fuel = OutOfFuel.
Proof.
  split; [reflexivity|]. intros pIf pRet pExpr fuel.
  unfold run_parse, parse. destruct fuel as [|fuel]; [reflexivity|].
  cbn [while]. unfold bind at 1. cbn [below_size variable_tokens List.length Nat.ltb Nat.leb].
  unfold bind at 1. unfold bind at 1.
  rewrite (parseDeclaration_no_paren variable_tokens pIf pRet pExpr (S fuel) 0
             (Token.mk "KEYWORD" "int" 1 1) (Token.mk "IDENTIFIER" "x" 1 5))
    by (try reflexivity; intros t [= <-]; discriminate).
  cbn [ret ASTNode.push_back_if].
  rewrite (parse_stuck_at_non_keyword _ pIf pRet pExpr 2
             (Token.mk "PUNCTUATION" ";" 1 6)); [reflexivity..|discriminate].
Qed.

(** What a loop that returns has established: an invariant of the body
    still holds, and the condition was last found false. *)
Lemma while_returns {A : Type} (I : A -> Prop) (cond : M bool)
      (body : A -> M A) :
  (forall a c a' c', I a -> body a c = Ok (a', c') -> I a') ->
  forall fuel a c a' c',
    I a -> while fuel cond body a c = Ok (a', c') ->
    I a' /\ exists c0, cond c0 = Ok (false, c').
Proof.
  intros Hbody. induction fuel as [|fuel IH]; intros a c a' c' Ha;
    [discriminate|].
  cbn [while]. unfold bind at 1.
  destruct (cond c) as [[[|] c1]| |] eqn:Hc; try discriminate.
  - unfold bind at 1.
    destruct (body a c1) as [[a1 c2]| |] eqn:Hb; try discriminate.
    apply IH. eapply Hbody; eauto.
  - unfold ret. intros [= <- <-]. eauto.
Qed.

(** Whenever [parse] returns, it returns a PROGRAM root and has read the
    whole token sequence. *)
Lemma parse_returns_program_root tokens pIf pRet pExpr fuel root current :
  parse tokens pIf pRet pExpr fuel 0 = Ok (root, current) ->
  ASTNode.type root = "PROGRAM" /\ List.length tokens <= current.
Proof.
  unfold parse. intros H.
  apply (while_returns (fun a => ASTNode.type a = "PROGRAM")) in H.
  - destruct H as [Ht [c0 Hc]]. split; [exact Ht|].
    unfold below_size in Hc. injection Hc as Hlt <-.
    now apply Nat.ltb_ge.
  - intros a c a' c' Ha. unfold bind, ret.
    destruct (parseDeclaration tokens pIf pRet pExpr fuel c)
      as [[[node|] c1]| |]; intros [= <- <-]; exact Ha.
  - reflexivity.
Qed.

(** A block left open at the end of the input does not stop the parser:
    ["int main() { return 0;"] parses to the same tree as the complete
    function (the return statement being parsed by the modelled
    [SpecModel.parseReturnStatement]). *)
Lemma parse_unterminated_block :
  Lexer.tokenize "int main() { return 0;" = Some (removelast main_tokens)
  /\ forall pIf pExpr extra,
       run_parse (removelast main_tokens) pIf
         (SpecModel.parseReturnStatement (removelast main_tokens))
         pExpr (4 + extra)
       = Ok (ASTNode.mk "PROGRAM" EmptyString
               [ASTNode.mk "FUNCTION_DECLARATION" "main"
                  [ASTNode.mk "BLOCK" EmptyString
                     [ASTNode.mk "RETURN_STATEMENT" EmptyString
                        [ASTNode.mk "EXPRESSION" "0" []]]]]).
Proof.
  split; [reflexivity|]. intros pIf pExpr extra. vm_compute. reflexivity.
Qed.

(** C4: parsing the tokens of ["int main() { return 0; }"] gives a
    PROGRAM root whose single child is a FUNCTION_DECLARATION with value
    ["main"], whose single child is a BLOCK, whose single child is a
    RETURN_STATEMENT (here with the returned expression as its child).
    The return statement is parsed by the modelled
    [SpecModel.parseReturnStatement]; the other undefined statement
    parsers are not reached and may be anything, and any fuel from 4 on
    suffices. *)
Theorem parse_main_returns_tree :
  Lexer.tokenize "int main() { return 0; }" = Some main_tokens
  /\ forall pIf pExpr extra,
       run_parse main_tokens pIf (SpecModel.parseReturnStatement main_tokens)
         pExpr (4 + extra)
       = Ok (ASTNode.mk "PROGRAM" EmptyString
               [ASTNode.mk "FUNCTION_DECLARATION" "main"
                  [ASTNode.mk "BLOCK" EmptyString
                     [ASTNode.mk "RETURN_STATEMENT" EmptyString
                        [ASTNode.mk "EXPRESSION" "0" []]]]]).
Proof.
  split; [reflexivity|]. intros pIf pExpr extra. vm_compute. reflexivity.
Qed.

(** C9: a failed [parseDeclaration] returns no node and leaves [current]
    where the failing test found it: two tokens on when a keyword and an
    identifier are not followed by ["("], unmoved when the token at
    [current] is missing or not a keyword, and one token on when the
    keyword is followed by the end of the input or by a token that is not
    an identifier. *)
Theorem parseDeclaration_keeps_consumed_tokens :
  forall tokens pIf pRet pExpr fuel current,
    (forall t_type t_name,
        nth_error tokens current = Some t_type ->
        Token.type t_type = "KEYWORD" ->
        nth_error tokens (S current) = Some t_name ->
        Token.type t_name = "IDENTIFIER" ->
        (forall t, nth_error tokens (S (S current)) = Some t ->
                   Token.value t <> "(") ->
        parseDeclaration tokens pIf pRet pExpr fuel current
        = Ok (None, S (S current)))
    /\ ((forall t, nth_error tokens current = Some t ->
                   Token.type t <> "KEYWORD") ->
        parseDeclaration tokens pIf pRet pExpr fuel current
        = Ok (None, current))
    /\ (forall t_type,
           nth_error tokens current = Some t_type ->
           Token.type t_type = "KEYWORD" ->
           (forall t, nth_error tokens (S current) = Some t ->
                      Token.type t <> "IDENTIFIER") ->
           parseDeclaration tokens pIf pRet pExpr fuel current
           = Ok (None, S current)).
Proof.
  intros tokens pIf pRet pExpr fuel current. repeat split.
  - intros t_type t_name. apply parseDeclaration_no_paren.
  - apply parseDeclaration_no_keyword.
  - intros t_type. apply parseDeclaration_no_name.
Qed.

Lemma parseDeclaration_keeps_consumed_tokens_witness :
  parseDeclaration variable_tokens
    (SpecModel.parseIfStatement variable_tokens)
    (SpecModel.parseReturnStatement variable_tokens)
    (SpecModel.parseExpressionStatement variable_tokens) 0 0
  = Ok (None, 2).
Proof.
  refine (proj1 (parseDeclaration_keeps_consumed_tokens variable_tokens
                   _ _ _ 0 0)
            (Token.mk "KEYWORD" "int" 1 1) (Token.mk "IDENTIFIER" "x" 1 5)
            eq_refl eq_refl eq_refl eq_refl _).
  intros t H. simpl in H. inversion H. simpl. discriminate.
Defined.

(** The modelled statement parsers read no token out of bounds. *)
Lemma modelled_raw_span_wp tokens stop current :
  wp (SpecModel.raw_span tokens stop) current anything.
Proof. exact I. Qed.

Lemma modelled_parseExpression_wp tokens stop current :
  wp (SpecModel.parseExpression tokens stop) current anything.
Proof. exact I. Qed.

Lemma modelled_parseReturnStatement_in_bounds tokens current :
  SpecModel.parseReturnStatement tokens current <> OutOfBounds.
Proof.
  apply wp_in_bounds with (Q := anything).
  unfold SpecModel.parseReturnStatement.
  apply wp_bind. eapply wp_weaken; [apply wp_next|]. intros _ c _.
  apply wp_bind. eapply wp_weaken; [apply modelled_parseExpression_wp|].
  intros e c' _. apply wp_skip_if. intros; exact I.
Qed.

Lemma modelled_parseExpressionStatement_in_bounds tokens current :
  SpecModel.parseExpressionStatement tokens current <> OutOfBounds.
Proof.
  apply wp_in_bounds with (Q := anything).
  unfold SpecModel.parseExpressionStatement.
  apply wp_bind. eapply wp_weaken; [apply modelled_raw_span_wp|].
  intros raw c _. apply wp_skip_if. intros; exact I.
Qed.

Lemma modelled_parseIfStatement_in_bounds tokens (parseBlock : M ASTNode.t)
      current :
  (forall c, parseBlock c <> OutOfBounds) ->
  SpecModel.parseIfStatement tokens parseBlock current <> OutOfBounds.
Proof.
  intros Hb. apply wp_in_bounds with (Q := anything).
  assert (Hblock : forall node c,
             wp (b <- below_size tokens &&& value_is tokens "{" ;;
                 if b then
                   next ;; block <- parseBlock ;;
                   ret (ASTNode.push_back node block)
                 else ret node) c anything).
  { intros node c. apply wp_bind. eapply wp_weaken; [apply wp_below_and|].
    intros [|] c' _; [|exact I].
    apply wp_bind. eapply wp_weaken; [apply wp_next|]. intros _ c1 _.
    apply wp_bind. eapply wp_weaken; [apply in_bounds_wp, Hb|].
    intros; exact I. }
  unfold SpecModel.parseIfStatement. cbv zeta.
  apply wp_bind. eapply wp_weaken; [apply wp_next|]. intros _ c _.
  apply wp_skip_if. intros c1.
  apply wp_bind. eapply wp_weaken; [apply modelled_parseExpression_wp|].
  intros e c2 _. apply wp_skip_if. intros c3.
  apply wp_bind. eapply wp_weaken; [apply Hblock|]. intros node c4 _.
  apply wp_bind. eapply wp_weaken; [apply wp_below_and|].
  intros [|] c5 _; [|exact I].
  apply wp_bind. eapply wp_weaken; [apply wp_next|]. intros _ c6 _.
  apply wp_bind. eapply wp_weaken; [apply Hblock|]. intros; exact I.
Qed.

(** C10: no parser method reads [tokens[current]] out of bounds.  For
    every token sequence, every fuel and every value of [current],
    [parse], [parseDeclaration], [parseBlock] and [parseStatement] never
    end in [OutOfBounds], provided the statement parsers that the source
    leaves undefined do not do so themselves when entered inside the
    sequence. *)
Theorem parser_reads_in_bounds :
  forall tokens pIf pRet pExpr,
    (forall (parseBlock : M ASTNode.t) current,
        (forall c, parseBlock c <> OutOfBounds) ->
        current < List.length tokens ->
        pIf parseBlock current <> OutOfBounds) ->
    (forall current,
        current < List.length tokens -> pRet current <> OutOfBounds) ->
    (forall current,
        current < List.length tokens -> pExpr current <> OutOfBounds) ->
    forall fuel current,
      parse tokens pIf pRet pExpr fuel current <> OutOfBounds
      /\ parseDeclaration tokens pIf pRet pExpr fuel current <> OutOfBounds
      /\ parseBlock tokens pIf pRet pExpr fuel current <> OutOfBounds
      /\ parseStatement tokens pIf pRet pExpr fuel current <> OutOfBounds
      /\ run_parse tokens pIf pRet pExpr fuel <> OutOfBounds.
Proof.
  intros tokens pIf pRet pExpr Hif Hret Hexpr fuel current.
  pose proof (wp_parse tokens pIf pRet pExpr Hif Hret Hexpr) as Hp.
  pose proof (wp_parseDeclaration tokens pIf pRet pExpr Hif Hret Hexpr) as Hd.
  destruct (wp_parseBlock_parseStatement tokens pIf pRet pExpr Hif Hret Hexpr
              fuel) as [Hb Hs].
  repeat split; try (eapply wp_in_bounds; eauto; fail).
  unfold run_parse. specialize (Hp fuel 0). unfold wp in Hp.
  destruct (parse tokens pIf pRet pExpr fuel 0) as [[root c]| |];
    [discriminate|contradiction|discriminate].
Qed.

Lemma parser_reads_in_bounds_witness :
  SpecModel.parse main_tokens 4 <> OutOfBounds
  /\ parseStatement main_tokens
       (SpecModel.parseIfStatement main_tokens)
       (SpecModel.parseReturnStatement main_tokens)
       (SpecModel.parseExpressionStatement main_tokens) 3 9
     <> OutOfBounds.
Proof.
  pose proof (parser_reads_in_bounds main_tokens
                (SpecModel.parseIfStatement main_tokens)
                (SpecModel.parseReturnStatement main_tokens)
                (SpecModel.parseExpressionStatement main_tokens)
                (fun pb c H _ =>
                   modelled_parseIfStatement_in_bounds main_tokens pb c H)
                (fun c _ => modelled_parseReturnStatement_in_bounds main_tokens c)
                (fun c _ =>
                   modelled_parseExpressionStatement_in_bounds main_tokens c))
    as H.
  split.
  - exact (proj2 (proj2 (proj2 (proj2 (H 4 0))))).
  - exact (proj1 (proj2 (proj2 (proj2 (H 3 9))))).
Defined.

(* ################################################################## *)
(** * Part V: further properties of the lexer and of the parser *)

(* ================================================================== *)
(** ** Vocabulary *)

Definition is_newline (c : ascii) : bool := Ascii.eqb c newline.

(** The text after the last newline of [s] ([s] itself when it has
    none). *)
Fixpoint last_line (s : string) : string :=
  match s with
  | EmptyString => EmptyString
  | String c s' =>
      if Nat.eqb (count_chars is_newline s') 0
      then (if is_newline c then s' else String c s')
      else last_line s'
  end.

(** [t1] ends before [t2] starts: on an earlier line, or on the same
    line with the whole lexeme of [t1] to the left of [t2]. *)
Definition ends_before (t1 t2 : Token.t) : Prop :=
  (Token.line t1 < Token.line t2)%Z
  \/ (Token.line t1 = Token.line t2
      /\ (Token.column t1 + Z.of_nat (String.length (Token.value t1))
          <= Token.column t2)%Z).

(** Position [(l, c)] is not after position [(l', c')]. *)
Definition pos_le (l c l' c' : Z) : Prop :=
  (l < l')%Z \/ (l = l' /\ (c <= c')%Z).

(** [in_int_range s l c]: from line [l], column [c] on, every position
    in the text [s] is a positive [int]. *)
Definition in_int_range (s : string) (l c : Z) : Prop :=
  (1 <= l)%Z /\ (1 <= c)%Z
  /\ (l + Z.of_nat (String.length s) <= int_max)%Z
  /\ (c + Z.of_nat (String.length s) <= int_max)%Z.

(** The type [tokenize] gives to a lexeme, read off the order of its
    tests on the first character. *)
Definition lexeme_type (w : string) : string :=
  match w with
  | EmptyString => EmptyString
  | String a _ =>
      if Lexer.is_ident_start a then
        (if Lexer.isKeyword w then "KEYWORD" else "IDENTIFIER")
      else if isdigit a then "NUMBER"
      else if ispunct a then "PUNCTUATION"
      else "OPERATOR"
  end.

Definition token_types : list string :=
  [ "KEYWORD"; "IDENTIFIER"; "NUMBER"; "PUNCTUATION"; "OPERATOR" ].

(** A printing character of ASCII (space to tilde) or white space. *)
Definition printable_or_space (c : ascii) : bool :=
  isspace c || in_range 32 126 c.

(* ================================================================== *)
(** ** Order and positions of tokens *)

Lemma pos_le_trans l1 c1 l2 c2 l3 c3 :
  pos_le l1 c1 l2 c2 -> pos_le l2 c2 l3 c3 -> pos_le l1 c1 l3 c3.
Proof. unfold pos_le. lia. Qed.

Lemma Forall_pos_le_weaken l c l' c' (toks : list Token.t) :
  pos_le l c l' c' ->
  Forall (fun t => pos_le l' c' (Token.line t) (Token.column t)) toks ->
  Forall (fun t => pos_le l c (Token.line t) (Token.column t)) toks.
Proof.
  intros H. apply Forall_impl. intros t Ht. eapply pos_le_trans; eauto.
Qed.

Lemma fits_int_range source : fits_int source -> in_int_range source 1 1.
Proof. unfold fits_int, in_int_range. lia. Qed.

Lemma in_int_range_small s l c :
  in_int_range s l c -> int32 l = l /\ int32 c = c.
Proof.
  unfold in_int_range. intros H. split; apply int32_small; lia.
Qed.

Lemma in_int_range_newline a s l c :
  in_int_range (String a s) l c -> in_int_range s (l + 1) 1.
Proof. unfold in_int_range. cbn [String.length]. lia. Qed.

Lemma in_int_range_char a s l c :
  in_int_range (String a s) l c -> in_int_range s l (c + 1).
Proof. unfold in_int_range. cbn [String.length]. lia. Qed.

Lemma in_int_range_span (p : ascii -> bool) s w r l c :
  span p s = (w, r) -> in_int_range s l c ->
  in_int_range r l (c + Z.of_nat (String.length w)).
Proof.
  intros Hs. apply span_spec in Hs as (-> & _ & _).
  unfold in_int_range. rewrite length_append. lia.
Qed.

(** No token of the remaining input lies before the position the lexer
    has reached. *)
Lemma Lexes_lower_bound s l c toks :
  Lexes s l c toks -> in_int_range s l c ->
  Forall (fun t => pos_le l c (Token.line t) (Token.column t)) toks.
Proof.
  induction 1 as [l c | s l c toks L IH | a s l c toks Ha Hn L IH
                 | a s l c w r toks Hsp Hid Hs L IH
                 | a s l c w r toks Hsp Hid Hdg Hs L IH
                 | a s l c toks Hsp Hid Hdg L IH]; intros R;
    pose proof (in_int_range_small _ _ _ R) as [Rl Rc].
  - constructor.
  - eapply Forall_pos_le_weaken;
      [|exact (IH (in_int_range_newline _ _ _ _ R))]. unfold pos_le. lia.
  - eapply Forall_pos_le_weaken;
      [|exact (IH (in_int_range_char _ _ _ _ R))]. unfold pos_le. lia.
  - constructor; [unfold pos_le; simpl; lia|].
    eapply Forall_pos_le_weaken;
      [|exact (IH (in_int_range_span _ _ _ _ _ _ Hs R))]. unfold pos_le. lia.
  - constructor; [unfold pos_le; simpl; lia|].
    eapply Forall_pos_le_weaken;
      [|exact (IH (in_int_range_span _ _ _ _ _ _ Hs R))]. unfold pos_le. lia.
  - constructor; [unfold pos_le; simpl; lia|].
    eapply Forall_pos_le_weaken;
      [|exact (IH (in_int_range_char _ _ _ _ R))]. unfold pos_le. lia.
Qed.

Lemma Lexes_order s l c toks :
  Lexes s l c toks -> in_int_range s l c ->
  forall i j ti tj,
    i < j -> nth_error toks i = Some ti -> nth_error toks j = Some tj ->
    ends_before ti tj.
Proof.
  assert (First : forall (T : Token.t) r l' c' ts j tj,
             Lexes r l' c' ts -> in_int_range r l' c' ->
             Token.line T = l' ->
             (Token.column T + Z.of_nat (String.length (Token.value T)) = c')%Z ->
             nth_error ts j = Some tj -> ends_before T tj).
  { intros T r l' c' ts j tj L R Hl Hc Hj.
    pose proof (Lexes_lower_bound _ _ _ _ L R) as B.
    rewrite Forall_forall in B. specialize (B tj (nth_error_In _ _ Hj)).
    unfold pos_le in B. unfold ends_before. lia. }
  induction 1 as [l c | s l c toks L IH | a s l c toks Ha Hn L IH
                 | a s l c w r toks Hsp Hid Hs L IH
                 | a s l c w r toks Hsp Hid Hdg Hs L IH
                 | a s l c toks Hsp Hid Hdg L IH];
    intros R i j ti tj Hij Hi Hj;
    pose proof (in_int_range_small _ _ _ R) as [Rl Rc];
    try (destruct i; discriminate).
  - eapply IH; eauto using in_int_range_newline.
  - eapply IH; eauto using in_int_range_char.
  - pose proof (in_int_range_span _ _ _ _ _ _ Hs R) as R'.
    destruct j as [|j]; [lia|]. cbn [nth_error] in Hj. destruct i as [|i].
    + injection Hi as <-. eapply First; eauto; simpl; congruence.
    + cbn [nth_error] in Hi. eapply IH; [exact R'| |eauto..]. lia.
  - pose proof (in_int_range_span _ _ _ _ _ _ Hs R) as R'.
    destruct j as [|j]; [lia|]. cbn [nth_error] in Hj. destruct i as [|i].
    + injection Hi as <-. eapply First; eauto; simpl; congruence.
    + cbn [nth_error] in Hi. eapply IH; [exact R'| |eauto..]. lia.
  - pose proof (in_int_range_char _ _ _ _ R) as R'.
    destruct j as [|j]; [lia|]. cbn [nth_error] in Hj. destruct i as [|i].
    + injection Hi as <-. eapply First; eauto; simpl; congruence.
    + cbn [nth_error] in Hi. eapply IH; [exact R'| |eauto..]. lia.
Qed.

Lemma Lexes_positive s l c toks :
  Lexes s l c toks -> in_int_range s l c ->
  Forall (fun t => (1 <= Token.line t)%Z /\ (1 <= Token.column t)%Z) toks.
Proof.
  induction 1 as [l c | s l c toks L IH | a s l c toks Ha Hn L IH
                 | a s l c w r toks Hsp Hid Hs L IH
                 | a s l c w r toks Hsp Hid Hdg Hs L IH
                 | a s l c toks Hsp Hid Hdg L IH]; intros R;
    pose proof (in_int_range_small _ _ _ R) as [Rl Rc];
    pose proof R as (R1 & R2 & _);
    try constructor; simpl; try lia;
    eauto using in_int_range_newline, in_int_range_char, in_int_range_span.
Qed.

(** X1: on an input of fewer than 2147483647 characters ([fits_int]; a
    longer one overflows the [int] line and column counters) the tokens
    come in reading order and do not overlap: of two tokens, the earlier
    one in the sequence lies on an earlier line, or on the same line and
    ends at or before the column where the later one starts; and every
    token has a line and a column of at least 1. *)
Theorem tokens_in_reading_order :
  forall source tokens,
    fits_int source ->
    Lexer.tokenize source = Some tokens ->
    (forall i j ti tj,
        i < j -> nth_error tokens i = Some ti -> nth_error tokens j = Some tj ->
        ends_before ti tj)
    /\ Forall (fun t => (1 <= Token.line t)%Z /\ (1 <= Token.column t)%Z)
         tokens.
Proof.
  intros source tokens Hfit E. apply tokenize_Lexes in E.
  apply fits_int_range in Hfit. split.
  - now apply (Lexes_order _ _ _ _ E).
  - now apply (Lexes_positive _ _ _ _ E).
Qed.

Lemma tokens_in_reading_order_witness :
  ends_before (Token.mk "IDENTIFIER" "ab" 1 1) (Token.mk "NUMBER" "12" 1 4).
Proof.
  exact (proj1 (tokens_in_reading_order "ab 12"
                  [Token.mk "IDENTIFIER" "ab" 1 1; Token.mk "NUMBER" "12" 1 4]
                  eq_refl eq_refl)
           0 1 _ _ (le_n 1) eq_refl eq_refl).
Defined.

Lemma position_after_lines l c s :
  fst (position_after (l, c) s)
  = (l + Z.of_nat (count_chars is_newline s))%Z.
Proof.
  revert l c; induction s as [|a s IH]; intros l c.
  - simpl. lia.
  - cbn [position_after count_chars]. unfold advance_pos, is_newline at 1.
    destruct (Ascii.eqb a newline); cbn [fst snd]; rewrite IH; lia.
Qed.

Lemma last_line_no_newline s :
  count_chars is_newline s = 0 -> last_line s = s.
Proof.
  induction s as [|a s IH]; [reflexivity|].
  cbn [count_chars last_line]. destruct (is_newline a); [discriminate|].
  cbn [Nat.add]. intros H. now rewrite H.
Qed.

Lemma position_after_column l c s :
  snd (position_after (l, c) s)
  = ((if Nat.eqb (count_chars is_newline s) 0 then c else 1)
     + Z.of_nat (String.length (last_line s)))%Z.
Proof.
  revert l c; induction s as [|a s IH]; intros l c.
  - simpl. lia.
  - cbn [position_after count_chars last_line]. unfold advance_pos.
    change (Ascii.eqb a newline) with (is_newline a).
    destruct (is_newline a); cbn [fst snd Nat.add]; rewrite IH.
    + destruct (Nat.eqb_spec (count_chars is_newline s) 0) as [E|E].
      * rewrite (last_line_no_newline _ E). reflexivity.
      * reflexivity.
    + destruct (Nat.eqb_spec (count_chars is_newline s) 0) as [E|E].
      * rewrite (last_line_no_newline _ E). cbn [String.length]. lia.
      * reflexivity.
Qed.

(** X2: on an input of fewer than 2147483647 characters ([fits_int]; a
    longer one overflows the [int] counters) the line of a token is 1
    plus the number of newline characters before its lexeme in the input,
    and its column is 1 plus the number of characters between the last of
    those newlines (or the start of the input) and the lexeme; every
    character counts for one column, a tab or a carriage return included,
    and only [\n] starts a line. *)
Theorem token_line_and_column :
  forall source tokens i t,
    fits_int source ->
    Lexer.tokenize source = Some tokens ->
    nth_error tokens i = Some t ->
    exists pre post,
      source = pre +++ Token.value t +++ post
      /\ filter_chars nonspace pre = lexeme_text (firstn i tokens)
      /\ Token.line t = (1 + Z.of_nat (count_chars is_newline pre))%Z
      /\ Token.column t = (1 + Z.of_nat (String.length (last_line pre)))%Z.
Proof.
  intros source tokens i t Hfit E Hi.
  destruct (tokenize_occurrence _ _ _ _ E Hi) as (pre & post & Es & P & F & _).
  rewrite (int_pos_fits source) in P;
    [|exact Hfit|now apply prefix_length with (rest := Token.value t +++ post)].
  exists pre, post. repeat split; auto.
  - apply (f_equal fst) in P. cbn [fst] in P.
    now rewrite P, position_after_lines.
  - apply (f_equal snd) in P. cbn [snd] in P.
    rewrite P, position_after_column.
    now destruct (Nat.eqb (count_chars is_newline pre) 0).
Qed.

Lemma token_line_and_column_witness :
  exists pre post,
    "a" +++ String newline " b" = pre +++ "b" +++ post
    /\ filter_chars nonspace pre = "a"
    /\ 2%Z = (1 + Z.of_nat (count_chars is_newline pre))%Z
    /\ 2%Z = (1 + Z.of_nat (String.length (last_line pre)))%Z.
Proof.
  exact (token_line_and_column ("a" +++ String newline " b")
           [Token.mk "IDENTIFIER" "a" 1 1; Token.mk "IDENTIFIER" "b" 2 2]
           1 (Token.mk "IDENTIFIER" "b" 2 2) eq_refl eq_refl eq_refl).
Defined.

(* ================================================================== *)
(** ** Types of tokens *)

Lemma token_shape_type t post :
  token_shape t post -> Token.type t = lexeme_type (Token.value t).
Proof.
  unfold token_shape, lexeme_type.
  destruct (Token.value t) as [|a w]; [tauto|].
  intros [(Ha & _ & _ & Ty) | [(Ha & _ & _ & Ty) | (_ & Hid & Hdg & _ & Ty)]].
  - now rewrite Ha.
  - now rewrite (digit_not_ident_start _ Ha), Ha.
  - now rewrite Hid, Hdg.
Qed.

Lemma tokenize_token_shape source tokens t :
  Lexer.tokenize source = Some tokens -> In t tokens ->
  exists pre post,
    source = pre +++ Token.value t +++ post /\ token_shape t post.
Proof.
  intros E Ht. destruct (In_nth_error _ _ Ht) as [i Hi].
  destruct (tokenize_occurrence _ _ _ _ E Hi) as (pre & post & Es & _ & _ & Sh).
  eauto.
Qed.

(** X3: the type of a token depends on its lexeme alone
    ([lexeme_type]: by the first character, and for words by membership
    in the keyword table), it is one of the five type names, and each
    type fixes the form of the lexeme: a KEYWORD is one of the eleven
    keywords, an IDENTIFIER a word that is not, a NUMBER starts with a
    digit and holds digits and dots only, a PUNCTUATION or OPERATOR
    lexeme is a single character. *)
Theorem token_type_from_lexeme :
  forall source tokens t,
    Lexer.tokenize source = Some tokens -> In t tokens ->
    Token.type t = lexeme_type (Token.value t)
    /\ In (Token.type t) token_types
    /\ (Token.type t = "KEYWORD" -> In (Token.value t) keyword_set)
    /\ (Token.type t = "IDENTIFIER" ->
        starts_with Lexer.is_ident_start (Token.value t) = true
        /\ all_chars Lexer.is_ident_char (Token.value t) = true
        /\ ~ In (Token.value t) keyword_set)
    /\ (Token.type t = "NUMBER" ->
        starts_with isdigit (Token.value t) = true
        /\ all_chars Lexer.is_number_char (Token.value t) = true)
    /\ (Token.type t = "PUNCTUATION" \/ Token.type t = "OPERATOR" ->
        String.length (Token.value t) = 1).
Proof.
  intros source tokens t E Ht.
  destruct (tokenize_token_shape _ _ _ E Ht) as (pre & post & _ & Sh).
  split; [eapply token_shape_type; eauto|].
  unfold token_shape in Sh. unfold token_types.
  destruct (Token.value t) as [|a w] eqn:V; [tauto|].
  destruct Sh as [(Ha & Hw & _ & Ty) | [(Ha & Hw & _ & Ty)
                                       | (_ & Hid & Hdg & -> & Ty)]];
    rewrite Ty.
  - destruct (Lexer.isKeyword (String a w)) eqn:K.
    + repeat split; try discriminate; try (simpl; tauto).
      * intros _. now apply isKeyword_spec.
      * intros [H|H]; discriminate.
    + repeat split; try discriminate; try (simpl; tauto).
      * cbn [all_chars]. now rewrite (ident_start_is_ident_char _ Ha), Hw.
      * rewrite <- isKeyword_spec, K. discriminate.
      * intros [H|H]; discriminate.
  - repeat split; try discriminate; try (simpl; tauto).
    + cbn [all_chars]. now rewrite (digit_is_number_char _ Ha), Hw.
    + intros [H|H]; discriminate.
  - destruct (ispunct a); repeat split; try discriminate; simpl; tauto.
Qed.

Lemma token_type_from_lexeme_witness :
  Token.type (Token.mk "NUMBER" "3.14.5" 1 1) = lexeme_type "3.14.5"
  /\ In "NUMBER" token_types.
Proof.
  pose proof (token_type_from_lexeme "3.14.5"
                [Token.mk "NUMBER" "3.14.5" 1 1]
                (Token.mk "NUMBER" "3.14.5" 1 1) eq_refl (or_introl eq_refl))
    as H.
  exact (conj (proj1 H) (proj1 (proj2 H))).
Defined.

Lemma unclassified_not_printable a :
  isspace a = false -> Lexer.is_ident_start a = false ->
  isdigit a = false -> ispunct a = false ->
  printable_or_space a = false.
Proof. ascii_cases a. Qed.

Lemma all_chars_append (p : ascii -> bool) (a b : string) :
  all_chars p (a +++ b) = all_chars p a && all_chars p b.
Proof.
  induction a as [|c a IH]; simpl; auto. rewrite IH. apply andb_assoc.
Qed.

(** X4: an OPERATOR token is always a single character that is neither
    white space nor a printing character of ASCII (a control character
    or a byte above 126); hence an input made of printing ASCII
    characters and white space yields no OPERATOR token at all. *)
Theorem operator_tokens_are_unprintable :
  forall source tokens,
    Lexer.tokenize source = Some tokens ->
    (forall t, In t tokens -> Token.type t = "OPERATOR" ->
               exists a, Token.value t = String a EmptyString
                         /\ printable_or_space a = false)
    /\ (all_chars printable_or_space source = true ->
        Forall (fun t => Token.type t <> "OPERATOR") tokens).
Proof.
  intros source tokens E.
  assert (Op : forall t pre post,
             source = pre +++ Token.value t +++ post ->
             token_shape t post -> Token.type t = "OPERATOR" ->
             exists a, Token.value t = String a EmptyString
                       /\ printable_or_space a = false).
  { intros t pre post _ Sh Ty. unfold token_shape in Sh.
    destruct (Token.value t) as [|a w]; [tauto|].
    destruct Sh as [(_ & _ & _ & Ty') | [(_ & _ & _ & Ty')
                                        | (Hsp & Hid & Hdg & -> & Ty')]];
      rewrite Ty' in Ty.
    - destruct (Lexer.isKeyword _); discriminate.
    - discriminate.
    - destruct (ispunct a) eqn:Hp; [discriminate|].
      exists a. split; [reflexivity|].
      now apply unclassified_not_printable. }
  split.
  - intros t Ht Ty.
    destruct (tokenize_token_shape _ _ _ E Ht) as (pre & post & Es & Sh).
    eapply Op; eauto.
  - intros Hall. apply Forall_forall. intros t Ht Ty.
    destruct (tokenize_token_shape _ _ _ E Ht) as (pre & post & Es & Sh).
    destruct (Op _ _ _ Es Sh Ty) as (a & V & Hp).
    rewrite Es, V, !all_chars_append in Hall. cbn [all_chars] in Hall.
    rewrite Hp in Hall.
    destruct (all_chars printable_or_space pre); simpl in Hall; discriminate.
Qed.

Lemma operator_tokens_are_unprintable_witness :
  Forall (fun t => Token.type t <> "OPERATOR")
    [Token.mk "IDENTIFIER" "a" 1 1; Token.mk "PUNCTUATION" "+" 1 2;
     Token.mk "NUMBER" "1" 1 3].
Proof.
  exact (proj2 (operator_tokens_are_unprintable "a+1" _ eq_refl) eq_refl).
Defined.

(* ================================================================== *)
(** ** White space, empty results and the number of tokens *)

Lemma Lexes_white_space s :
  all_chars isspace s = true -> forall l c, Lexes s l c [].
Proof.
  induction s as [|a s IH]; intros H l c; [constructor|].
  cbn [all_chars] in H. apply andb_prop in H as [Ha Hs].
  destruct (Ascii.eqb_spec a newline) as [->|Hn].
  - apply Lexes_newline. now apply IH.
  - apply Lexes_blank; auto.
Qed.

Lemma filter_nonspace_nil s :
  filter_chars nonspace s = EmptyString -> all_chars isspace s = true.
Proof.
  induction s as [|a s IH]; [reflexivity|].
  cbn [filter_chars all_chars]. unfold nonspace at 1.
  destruct (isspace a); simpl; [exact IH|discriminate].
Qed.

(** X5: [tokenize] returns the empty sequence exactly for the inputs
    that consist of white space only (the empty input among them). *)
Theorem tokenize_nothing_iff_white_space :
  forall source,
    Lexer.tokenize source = Some [] <-> all_chars isspace source = true.
Proof.
  intros source. split.
  - intros E. apply tokenize_Lexes in E. apply Lexes_text in E.
    apply filter_nonspace_nil. now rewrite <- E.
  - intros H. apply tokenize_Lexes. now apply Lexes_white_space.
Qed.

Lemma count_le_total_length (tokens : list Token.t) :
  Forall (fun t => Token.value t <> EmptyString) tokens ->
  List.length tokens <= total_lexeme_length tokens.
Proof.
  induction 1 as [|t ts Ht Hts IH]; simpl; [lia|].
  destruct (Token.value t); [congruence|]. simpl. lia.
Qed.

(** X6: there are never more tokens than characters that are not white
    space: the number of tokens plus the number of white-space
    characters is at most the length of the input. *)
Theorem token_count_bounded :
  forall source tokens,
    Lexer.tokenize source = Some tokens ->
    List.length tokens + count_chars isspace source <= String.length source.
Proof.
  intros source tokens E.
  assert (Hne : Forall (fun t => Token.value t <> EmptyString) tokens).
  { apply Forall_forall. intros t Ht.
    destruct (tokenize_token_shape _ _ _ E Ht) as (pre & post & _ & Sh).
    unfold token_shape in Sh. now destruct (Token.value t). }
  pose proof (count_le_total_length _ Hne) as Hc.
  apply tokenize_Lexes in E. apply Lexes_text in E.
  rewrite total_lexeme_length_text, E in Hc.
  pose proof (filter_count_length isspace source) as Hf.
  change (fun c => negb (isspace c)) with nonspace in Hf. lia.
Qed.

Lemma token_count_bounded_witness :
  List.length [Token.mk "IDENTIFIER" "ab" 1 2; Token.mk "PUNCTUATION" ";" 1 5]
  + count_chars isspace " ab ;" <= String.length " ab ;".
Proof. exact (token_count_bounded " ab ;" _ eq_refl). Defined.

(* ================================================================== *)
(** ** Tokenizing a longer input *)

Lemma Lexes_total s l c : exists toks, Lexes s l c toks.
Proof.
  destruct (tokenize_loop_Lexes (String.length s + 2)
              (Lexer.mk s 0 (int32 l) (int32 c)) [] l c eq_refl eq_refl)
    as (lx' & toks & _ & L & _); [reflexivity|].
  exists toks. exact L.
Qed.

(** Types and lexemes do not depend on the position the lexer starts
    from. *)
Lemma Lexes_shift s l c toks :
  Lexes s l c toks ->
  forall l' c', exists toks',
    Lexes s l' c' toks'
    /\ map kind_and_lexeme toks' = map kind_and_lexeme toks.
Proof.
  induction 1 as [l c | s l c toks L IH | a s l c toks Ha Hn L IH
                 | a s l c w r toks Hsp Hid Hs L IH
                 | a s l c w r toks Hsp Hid Hdg Hs L IH
                 | a s l c toks Hsp Hid Hdg L IH]; intros l' c'.
  - exists []. split; [constructor|reflexivity].
  - destruct (IH (l' + 1)%Z 1%Z) as (toks' & L' & K).
    exists toks'. split; [now apply Lexes_newline|exact K].
  - destruct (IH l' (c' + 1)%Z) as (toks' & L' & K).
    exists toks'. split; [now apply Lexes_blank|exact K].
  - destruct (IH l' (c' + Z.of_nat (String.length w))%Z) as (toks' & L' & K).
    eexists. split; [eapply Lexes_word; eauto|].
    cbn [map]. now rewrite K.
  - destruct (IH l' (c' + Z.of_nat (String.length w))%Z) as (toks' & L' & K).
    eexists. split; [eapply Lexes_number; eauto|].
    cbn [map]. now rewrite K.
  - destruct (IH l' (c' + 1)%Z) as (toks' & L' & K).
    eexists. split; [eapply Lexes_symbol; eauto|].
    cbn [map]. now rewrite K.
Qed.

Lemma span_app (p : ascii -> bool) s w r t :
  span p s = (w, r) -> starts_with p (r +++ t) = false ->
  span p (s +++ t) = (w, r +++ t).
Proof.
  intros Hs Hr. destruct (span_spec _ _ _ _ Hs) as (-> & Hw & _).
  rewrite append_assoc. now apply span_all.
Qed.

Lemma starts_with_app_cons (p : ascii -> bool) r a t :
  starts_with p r = false -> p a = false ->
  starts_with p (r +++ String a t) = false.
Proof. destruct r; simpl; auto. Qed.

Lemma space_not_ident_char a : isspace a = true -> Lexer.is_ident_char a = false.
Proof.
  intros H. destruct (Lexer.is_ident_char a) eqn:E; [|reflexivity].
  apply ident_char_not_space in E. congruence.
Qed.

Lemma space_not_number_char a :
  isspace a = true -> Lexer.is_number_char a = false.
Proof.
  intros H. destruct (Lexer.is_number_char a) eqn:E; [|reflexivity].
  apply number_char_not_space in E. congruence.
Qed.

(** A white-space character ends whatever token precedes it. *)
Lemma Lexes_app_space s l c toks :
  Lexes s l c toks ->
  forall a t kinds,
    isspace a = true ->
    (forall l' c', exists toks2,
        Lexes (String a t) l' c' toks2
        /\ map kind_and_lexeme toks2 = kinds) ->
    exists toks2,
      Lexes (s +++ String a t) l c (toks ++ toks2)
      /\ map kind_and_lexeme toks2 = kinds.
Proof.
  induction 1 as [l c | s l c toks L IH | a0 s l c toks Ha Hn L IH
                 | a0 s l c w r toks Hsp Hid Hs L IH
                 | a0 s l c w r toks Hsp Hid Hdg Hs L IH
                 | a0 s l c toks Hsp Hid Hdg L IH]; intros a t kinds Hspace Ht.
  - apply Ht.
  - destruct (IH a t kinds Hspace Ht) as (toks2 & L2 & K).
    exists toks2. split; [|exact K]. now apply Lexes_newline.
  - destruct (IH a t kinds Hspace Ht) as (toks2 & L2 & K).
    exists toks2. split; [|exact K]. now apply Lexes_blank.
  - destruct (IH a t kinds Hspace Ht) as (toks2 & L2 & K).
    exists toks2. split; [|exact K].
    destruct (span_spec _ _ _ _ Hs) as (_ & _ & Hr).
    cbn [String.append app].
    apply Lexes_word with (r := r +++ String a t); auto.
    change (String a0 (s +++ String a t)) with (String a0 s +++ String a t).
    apply span_app; auto.
    apply starts_with_app_cons; auto using space_not_ident_char.
  - destruct (IH a t kinds Hspace Ht) as (toks2 & L2 & K).
    exists toks2. split; [|exact K].
    destruct (span_spec _ _ _ _ Hs) as (_ & _ & Hr).
    cbn [String.append app].
    apply Lexes_number with (r := r +++ String a t); auto.
    change (String a0 (s +++ String a t)) with (String a0 s +++ String a t).
    apply span_app; auto.
    apply starts_with_app_cons; auto using space_not_number_char.
  - destruct (IH a t kinds Hspace Ht) as (toks2 & L2 & K).
    exists toks2. split; [|exact K].
    cbn [String.append app]. now apply Lexes_symbol.
Qed.

(** X7: no token spans white space.  When two texts are joined by a
    white-space character, the tokens of the first text come out
    unchanged, positions included, and they are followed by tokens with
    the types and lexemes of the tokens of the second text. *)
Theorem tokenize_splits_at_white_space :
  forall s a t,
    isspace a = true ->
    exists ts tt tt',
      Lexer.tokenize s = Some ts
      /\ Lexer.tokenize t = Some tt
      /\ Lexer.tokenize (s +++ String a t) = Some (ts ++ tt')
      /\ map kind_and_lexeme tt' = map kind_and_lexeme tt.
Proof.
  intros s a t Ha.
  destruct (tokenize_total s) as [ts Es].
  destruct (tokenize_total t) as [tt Et].
  pose proof (proj1 (tokenize_Lexes _ _) Es) as Ls.
  pose proof (proj1 (tokenize_Lexes _ _) Et) as Lt.
  destruct (Lexes_app_space _ _ _ _ Ls a t (map kind_and_lexeme tt) Ha)
    as (tt' & L & K).
  { intros l' c'. destruct (Ascii.eqb_spec a newline) as [->|Hn].
    - destruct (Lexes_shift _ _ _ _ Lt (l' + 1)%Z 1%Z) as (toks2 & L2 & K2).
      exists toks2. split; [now apply Lexes_newline|exact K2].
    - destruct (Lexes_shift _ _ _ _ Lt l' (c' + 1)%Z) as (toks2 & L2 & K2).
      exists toks2. split; [now apply Lexes_blank|exact K2]. }
  exists ts, tt, tt'. repeat split; auto. now apply tokenize_Lexes.
Qed.

Lemma tokenize_splits_at_white_space_witness :
  exists ts tt tt',
    Lexer.tokenize "x1" = Some ts
    /\ Lexer.tokenize "2y" = Some tt
    /\ Lexer.tokenize ("x1" +++ String " " "2y") = Some (ts ++ tt')
    /\ map kind_and_lexeme tt' = map kind_and_lexeme tt.
Proof. exact (tokenize_splits_at_white_space "x1" " " "2y" eq_refl). Defined.

Lemma Lexes_cons_input r l c t toks :
  Lexes r l c (t :: toks) -> exists x r', r = String x r'.
Proof. intros H. inversion H; subst; eauto. Qed.

(** Appending text can only change the last token. *)
Lemma Lexes_app_prefix s l c toks :
  Lexes s l c toks ->
  forall t, exists toks',
    Lexes (s +++ t) l c (removelast toks ++ toks').
Proof.
  induction 1 as [l c | s l c toks L IH | a0 s l c toks Ha Hn L IH
                 | a0 s l c w r toks Hsp Hid Hs L IH
                 | a0 s l c w r toks Hsp Hid Hdg Hs L IH
                 | a0 s l c toks Hsp Hid Hdg L IH]; intros t.
  - apply Lexes_total.
  - destruct (IH t) as (toks' & L'). exists toks'. now apply Lexes_newline.
  - destruct (IH t) as (toks' & L'). exists toks'. now apply Lexes_blank.
  - destruct toks as [|t2 toks]; [apply Lexes_total|].
    destruct (IH t) as (toks' & L'). exists toks'.
    destruct (Lexes_cons_input _ _ _ _ _ L) as (x & r' & ->).
    destruct (span_spec _ _ _ _ Hs) as (_ & _ & Hr).
    change (removelast (?T :: t2 :: toks)) with (T :: removelast (t2 :: toks)).
    cbn [String.append app].
    apply Lexes_word with (r := String x r' +++ t); auto.
    change (String a0 (s +++ t)) with (String a0 s +++ t).
    apply span_app; auto.
  - destruct toks as [|t2 toks]; [apply Lexes_total|].
    destruct (IH t) as (toks' & L'). exists toks'.
    destruct (Lexes_cons_input _ _ _ _ _ L) as (x & r' & ->).
    destruct (span_spec _ _ _ _ Hs) as (_ & _ & Hr).
    change (removelast (?T :: t2 :: toks)) with (T :: removelast (t2 :: toks)).
    cbn [String.append app].
    apply Lexes_number with (r := String x r' +++ t); auto.
    change (String a0 (s +++ t)) with (String a0 s +++ t).
    apply span_app; auto.
  - destruct toks as [|t2 toks]; [apply Lexes_total|].
    destruct (IH t) as (toks' & L'). exists toks'.
    change (removelast (?T :: t2 :: toks)) with (T :: removelast (t2 :: toks)).
    cbn [String.append app]. now apply Lexes_symbol.
Qed.

(** X8: appending text to an input can only change its last token: every
    token of [s] but the last is a token of [s +++ t], at the same place
    in the sequence and with the same position. *)
Theorem tokenize_prefix_stable :
  forall s t,
    exists toks toks',
      Lexer.tokenize s = Some toks
      /\ Lexer.tokenize (s +++ t) = Some (removelast toks ++ toks').
Proof.
  intros s t. destruct (tokenize_total s) as [toks E].
  pose proof (proj1 (tokenize_Lexes _ _) E) as L.
  destruct (Lexes_app_prefix _ _ _ _ L t) as (toks' & L').
  exists toks, toks'. split; [exact E|]. now apply tokenize_Lexes.
Qed.

(* ================================================================== *)
(** ** The cursor of the parser *)

(** A method never moves [current] backwards. *)
Definition never_rewinds {A : Type} (m : M A) : Prop :=
  forall current a current', m current = Ok (a, current') -> current <= current'.

Lemma never_rewinds_ret {A : Type} (a : A) : never_rewinds (ret a).
Proof. intros c a' c' [= _ <-]. lia. Qed.

Lemma never_rewinds_bind {A B : Type} (m : M A) (k : A -> M B) :
  never_rewinds m -> (forall a, never_rewinds (k a)) ->
  never_rewinds (bind m k).
Proof.
  intros Hm Hk c b c'. unfold bind.
  destruct (m c) as [[a c1]| |] eqn:E; try discriminate.
  intros H. apply Hm in E. apply Hk in H. lia.
Qed.

Lemma never_rewinds_while {A : Type} (cond : M bool) (body : A -> M A) :
  never_rewinds cond -> (forall a, never_rewinds (body a)) ->
  forall fuel a, never_rewinds (while fuel cond body a).
Proof.
  intros Hc Hb. induction fuel as [|fuel IH]; intros a; [discriminate|].
  cbn [while]. apply never_rewinds_bind; [exact Hc|].
  intros [|]; [|apply never_rewinds_ret].
  apply never_rewinds_bind; [apply Hb|]. intros a'. apply IH.
Qed.

Lemma never_rewinds_next : never_rewinds next.
Proof. intros c a c' [= _ <-]. lia. Qed.

Lemma never_rewinds_when_next b : never_rewinds (when b next).
Proof. destruct b; [apply never_rewinds_next|apply never_rewinds_ret]. Qed.

Lemma never_rewinds_token tokens : never_rewinds (token tokens).
Proof.
  intros c a c'. unfold token.
  destruct (nth_error tokens c); [|discriminate]. intros [= _ <-]. lia.
Qed.

Lemma never_rewinds_read tokens (f : Token.t -> bool) :
  never_rewinds (t <- token tokens ;; ret (f t)).
Proof.
  apply never_rewinds_bind; [apply never_rewinds_token|].
  intros t. apply never_rewinds_ret.
Qed.

Lemma never_rewinds_below_and tokens (f : Token.t -> bool) :
  never_rewinds (below_size tokens &&& (t <- token tokens ;; ret (f t))).
Proof. intros c a c'. rewrite below_and_read. intros [= _ <-]. lia. Qed.

Lemma never_rewinds_at_end_or tokens (f : Token.t -> bool) :
  never_rewinds (at_end tokens ||| (t <- token tokens ;; ret (f t))).
Proof. intros c a c'. rewrite at_end_or_read. intros [= _ <-]. lia. Qed.

Lemma never_rewinds_value_next tokens : never_rewinds (value_next tokens).
Proof.
  unfold value_next.
  apply never_rewinds_bind; [apply never_rewinds_token|]. intros t.
  apply never_rewinds_bind; [apply never_rewinds_next|]. intros _.
  apply never_rewinds_ret.
Qed.

(** [if (current < tokens.size() && tokens[current].value == v) current++]
    followed by [k]. *)
Lemma never_rewinds_skip_if tokens (v : string) {A : Type} (k : M A) :
  never_rewinds k ->
  never_rewinds (b <- below_size tokens &&& value_is tokens v ;;
                 when b next ;; k).
Proof.
  intros Hk. apply never_rewinds_bind; [apply never_rewinds_below_and|].
  intros b. apply never_rewinds_bind; [apply never_rewinds_when_next|].
  intros _. exact Hk.
Qed.

Section CursorFacts.

Variable tokens : list Token.t.
Variable parseIfStatement : M ASTNode.t -> M (option ASTNode.t).
Variable parseReturnStatement : M (option ASTNode.t).
Variable parseExpressionStatement : M (option ASTNode.t).

Hypothesis parseIfStatement_never_rewinds :
  forall parseBlock : M ASTNode.t,
    never_rewinds parseBlock -> never_rewinds (parseIfStatement parseBlock).
Hypothesis parseReturnStatement_never_rewinds :
  never_rewinds parseReturnStatement.
Hypothesis parseExpressionStatement_never_rewinds :
  never_rewinds parseExpressionStatement.

Lemma never_rewinds_parseStatement_body (parseBlock : M ASTNode.t) :
  never_rewinds parseBlock ->
  never_rewinds (parseStatement_body tokens parseIfStatement
                   parseReturnStatement parseExpressionStatement parseBlock).
Proof.
  intros Hb. unfold parseStatement_body.
  apply never_rewinds_bind.
  { intros c a c' [= _ <-]. lia. }
  intros [|]; [apply never_rewinds_ret|].
  assert (Hexpr : never_rewinds
                    (stmt <- parseExpressionStatement ;;
                     b <- below_size tokens &&& value_is tokens ";" ;;
                     when b next ;; ret stmt)).
  { apply never_rewinds_bind; [exact parseExpressionStatement_never_rewinds|].
    intros stmt. apply never_rewinds_skip_if, never_rewinds_ret. }
  apply never_rewinds_bind; [apply never_rewinds_read|].
  intros [|]; [|exact Hexpr].
  apply never_rewinds_bind; [apply never_rewinds_read|].
  intros [|]; [now apply parseIfStatement_never_rewinds|].
  apply never_rewinds_bind; [apply never_rewinds_read|].
  intros [|]; [exact parseReturnStatement_never_rewinds|exact Hexpr].
Qed.

Lemma never_rewinds_parseBlock_parseStatement fuel :
  never_rewinds (parseBlock tokens parseIfStatement parseReturnStatement
                   parseExpressionStatement fuel)
  /\ never_rewinds (parseStatement tokens parseIfStatement
                      parseReturnStatement parseExpressionStatement fuel).
Proof.
  induction fuel as [|fuel [IHb IHs]]; [split; discriminate|].
  split.
  - cbn [parseBlock]. apply never_rewinds_bind.
    + apply never_rewinds_while.
      * unfold value_is_not. apply never_rewinds_below_and.
      * intros block. apply never_rewinds_bind; [exact IHs|].
        intros st. apply never_rewinds_ret.
    + intros block. apply never_rewinds_skip_if, never_rewinds_ret.
  - cbn [parseStatement]. now apply never_rewinds_parseStatement_body.
Qed.

Lemma never_rewinds_parseDeclaration fuel :
  never_rewinds (parseDeclaration tokens parseIfStatement
                   parseReturnStatement parseExpressionStatement fuel).
Proof.
  unfold parseDeclaration, type_is_not.
  apply never_rewinds_bind; [apply never_rewinds_at_end_or|].
  intros [|]; [apply never_rewinds_ret|].
  apply never_rewinds_bind; [apply never_rewinds_value_next|]. intros _.
  apply never_rewinds_bind; [apply never_rewinds_at_end_or|].
  intros [|]; [apply never_rewinds_ret|].
  apply never_rewinds_bind; [apply never_rewinds_value_next|]. intros name.
  apply never_rewinds_bind; [apply never_rewinds_below_and|].
  intros [|]; [|apply never_rewinds_ret].
  apply never_rewinds_bind; [apply never_rewinds_next|]. intros _.
  apply never_rewinds_bind.
  { apply never_rewinds_while.
    - unfold value_is_not. apply never_rewinds_below_and.
    - intros _. apply never_rewinds_next. }
  intros _. apply never_rewinds_skip_if.
  apply never_rewinds_bind; [apply never_rewinds_below_and|].
  intros [|]; [|apply never_rewinds_ret].
  apply never_rewinds_bind; [apply never_rewinds_next|]. intros _.
  apply never_rewinds_bind;
    [apply (proj1 (never_rewinds_parseBlock_parseStatement fuel))|].
  intros block. apply never_rewinds_ret.
Qed.

Lemma never_rewinds_parse fuel :
  never_rewinds (parse tokens parseIfStatement parseReturnStatement
                   parseExpressionStatement fuel).
Proof.
  unfold parse. apply never_rewinds_while.
  - intros c a c' [= _ <-]. lia.
  - intros root. apply never_rewinds_bind;
      [apply never_rewinds_parseDeclaration|].
    intros node. apply never_rewinds_ret.
Qed.

End CursorFacts.

(** X9: the parser never moves its cursor backwards.  Whenever [parse],
    [parseDeclaration], [parseBlock] or [parseStatement] returns, the
    value of [current] is at least what it was on entry, provided the
    statement parsers that the source leaves undefined do not rewind
    either. *)
Theorem parser_never_rewinds :
  forall tokens pIf pRet pExpr,
    (forall parseBlock : M ASTNode.t,
        never_rewinds parseBlock -> never_rewinds (pIf parseBlock)) ->
    never_rewinds pRet ->
    never_rewinds pExpr ->
    forall fuel,
      never_rewinds (parse tokens pIf pRet pExpr fuel)
      /\ never_rewinds (parseDeclaration tokens pIf pRet pExpr fuel)
      /\ never_rewinds (parseBlock tokens pIf pRet pExpr fuel)
      /\ never_rewinds (parseStatement tokens pIf pRet pExpr fuel).
Proof.
  intros tokens pIf pRet pExpr Hif Hret Hexpr fuel.
  pose proof (never_rewinds_parseBlock_parseStatement tokens pIf pRet pExpr
                Hif Hret Hexpr fuel) as [Hb Hs].
  repeat split; auto.
  - now apply never_rewinds_parse.
  - now apply never_rewinds_parseDeclaration.
Qed.

Lemma modelled_raw_span_never_rewinds tokens stop :
  never_rewinds (SpecModel.raw_span tokens stop).
Proof. intros c a c' [= _ <-]. lia. Qed.

Lemma modelled_parseExpression_never_rewinds tokens stop :
  never_rewinds (SpecModel.parseExpression tokens stop).
Proof.
  apply never_rewinds_bind; [apply modelled_raw_span_never_rewinds|].
  intros raw. apply never_rewinds_ret.
Qed.

Lemma modelled_parseReturnStatement_never_rewinds tokens :
  never_rewinds (SpecModel.parseReturnStatement tokens).
Proof.
  unfold SpecModel.parseReturnStatement.
  apply never_rewinds_bind; [apply never_rewinds_next|]. intros _.
  apply never_rewinds_bind; [apply modelled_parseExpression_never_rewinds|].
  intros e. apply never_rewinds_skip_if, never_rewinds_ret.
Qed.

Lemma modelled_parseExpressionStatement_never_rewinds tokens :
  never_rewinds (SpecModel.parseExpressionStatement tokens).
Proof.
  unfold SpecModel.parseExpressionStatement.
  apply never_rewinds_bind; [apply modelled_raw_span_never_rewinds|].
  intros raw. apply never_rewinds_skip_if, never_rewinds_ret.
Qed.

Lemma modelled_parseIfStatement_never_rewinds tokens (parseBlock : M ASTNode.t) :
  never_rewinds parseBlock ->
  never_rewinds (SpecModel.parseIfStatement tokens parseBlock).
Proof.
  intros Hb.
  assert (Hblock : forall node,
             never_rewinds
               (b <- below_size tokens &&& value_is tokens "{" ;;
                if b then
                  next ;; block <- parseBlock ;;
                  ret (ASTNode.push_back node block)
                else ret node)).
  { intros node. apply never_rewinds_bind; [apply never_rewinds_below_and|].
    intros [|]; [|apply never_rewinds_ret].
    apply never_rewinds_bind; [apply never_rewinds_next|]. intros _.
    apply never_rewinds_bind; [exact Hb|]. intros b. apply never_rewinds_ret. }
  unfold SpecModel.parseIfStatement. cbv zeta.
  apply never_rewinds_bind; [apply never_rewinds_next|]. intros _.
  apply never_rewinds_skip_if.
  apply never_rewinds_bind; [apply modelled_parseExpression_never_rewinds|].
  intros e. apply never_rewinds_skip_if.
  apply never_rewinds_bind; [apply Hblock|]. intros node.
  apply never_rewinds_bind; [apply never_rewinds_below_and|].
  intros [|]; [|apply never_rewinds_ret].
  apply never_rewinds_bind; [apply never_rewinds_next|]. intros _.
  apply never_rewinds_bind; [apply Hblock|]. intros n. apply never_rewinds_ret.
Qed.

Lemma parser_never_rewinds_witness :
  never_rewinds
    (parse main_tokens (SpecModel.parseIfStatement main_tokens)
       (SpecModel.parseReturnStatement main_tokens)
       (SpecModel.parseExpressionStatement main_tokens) 4).
Proof.
  exact (proj1 (parser_never_rewinds main_tokens _ _ _
                  (modelled_parseIfStatement_never_rewinds main_tokens)
                  (modelled_parseReturnStatement_never_rewinds main_tokens)
                  (modelled_parseExpressionStatement_never_rewinds main_tokens)
                  4)).
Defined.

(* ================================================================== *)
(** ** What the parser returns *)

(** [current < tokens.size() && tokens[current].value == v], as a
    function of [current]. *)
Definition value_at (tokens : list Token.t) (current : nat) (v : string)
  : bool :=
  match nth_error tokens current with
  | Some t => String.eqb (Token.value t) v
  | None => false
  end.

(** The number of tokens of [l] before the first one with lexeme [v]
    (all of them when there is none). *)
Fixpoint until_value (v : string) (l : list Token.t) : nat :=
  match l with
  | [] => 0
  | t :: l' => if String.eqb (Token.value t) v then 0 else S (until_value v l')
  end.

(** A function node as [parseDeclaration] builds it: no parameters, and
    at most one child, a block. *)
Definition function_node (n : ASTNode.t) : Prop :=
  ASTNode.type n = "FUNCTION_DECLARATION"
  /\ (ASTNode.children n = []
      \/ exists block,
           ASTNode.children n = [block]
           /\ ASTNode.type block = "BLOCK"
           /\ ASTNode.value block = EmptyString).

Lemma push_back_if_type node child :
  ASTNode.type (ASTNode.push_back_if node child) = ASTNode.type node.
Proof. now destruct child. Qed.

Lemma push_back_if_value node child :
  ASTNode.value (ASTNode.push_back_if node child) = ASTNode.value node.
Proof. now destruct child. Qed.

Section ParserResults.

Variable tokens : list Token.t.
Variable parseIfStatement : M ASTNode.t -> M (option ASTNode.t).
Variable parseReturnStatement : M (option ASTNode.t).
Variable parseExpressionStatement : M (option ASTNode.t).

Let parseDeclaration' :=
  parseDeclaration tokens parseIfStatement parseReturnStatement
    parseExpressionStatement.
Let parseBlock' :=
  parseBlock tokens parseIfStatement parseReturnStatement
    parseExpressionStatement.
Let parse' :=
  parse tokens parseIfStatement parseReturnStatement
    parseExpressionStatement.

Lemma value_at_read v current :
  (below_size tokens &&& value_is tokens v) current
  = Ok (value_at tokens current v, current).
Proof. unfold value_is. now rewrite below_and_read. Qed.

(** [if (current < tokens.size() && tokens[current].value == v) current++;]
    then [k]. *)
Lemma skip_if_eq v {A : Type} (k : M A) current :
  (b <- below_size tokens &&& value_is tokens v ;; when b next ;; k) current
  = k (if value_at tokens current v then S current else current).
Proof.
  unfold bind at 1. rewrite value_at_read.
  now destruct (value_at tokens current v).
Qed.

Lemma guard_eq v {A : Type} (k1 k2 : M A) current :
  (b <- below_size tokens &&& value_is tokens v ;; if b then k1 else k2)
    current
  = if value_at tokens current v then k1 current else k2 current.
Proof.
  unfold bind at 1. rewrite value_at_read.
  now destruct (value_at tokens current v).
Qed.

(** *** Blocks *)

Lemma parseBlock_unfold fuel :
  parseBlock' (S fuel)
  = (block <- while fuel (below_size tokens &&& value_is_not tokens "}")
                (fun block =>
                   statement <- parseStatement tokens parseIfStatement
                                  parseReturnStatement
                                  parseExpressionStatement fuel ;;
                   ret (ASTNode.push_back_if block statement))
                (ASTNode.make "BLOCK") ;;
     b <- below_size tokens &&& value_is tokens "}" ;;
     when b next ;;
     ret block).
Proof. reflexivity. Qed.

Lemma parseBlock_returns fuel current block current' :
  parseBlock' fuel current = Ok (block, current') ->
  ASTNode.type block = "BLOCK" /\ ASTNode.value block = EmptyString
  /\ (List.length tokens <= current'
      \/ exists c t, current' = S c /\ nth_error tokens c = Some t
                     /\ Token.value t = "}").
Proof.
  destruct fuel as [|fuel]; [discriminate|].
  rewrite parseBlock_unfold. unfold bind at 1.
  match goal with |- context [while fuel ?c ?b ?a current] =>
    destruct (while fuel c b a current) as [[blk c1]| |] eqn:W;
      try discriminate end.
  apply (while_returns
           (fun a => ASTNode.type a = "BLOCK"
                     /\ ASTNode.value a = EmptyString)) in W.
  - destruct W as [[Ht Hv] [c0 Hc]].
    unfold value_is_not in Hc. rewrite below_and_read in Hc.
    injection Hc as Hc <-.
    rewrite skip_if_eq. unfold ret, value_at. intros [= <- <-].
    repeat split; auto.
    destruct (nth_error tokens c0) as [t|] eqn:E.
    + apply negb_false_iff in Hc. rewrite Hc.
      right. exists c0, t. repeat split; auto. now apply String.eqb_eq.
    + left. now apply nth_error_None.
  - intros a c a' c' [Ht Hv]. unfold bind, ret.
    match goal with |- context [parseStatement ?x ?y ?z ?w fuel c] =>
      destruct (parseStatement x y z w fuel c) as [[st c2]| |];
        try discriminate end.
    intros [= <- <-]. now rewrite push_back_if_type, push_back_if_value.
  - split; reflexivity.
Qed.

(** *** Declarations *)

Lemma parseDeclaration_returns_node fuel current node current' :
  parseDeclaration' fuel current = Ok (Some node, current') ->
  exists t_type t_name,
    nth_error tokens current = Some t_type
    /\ Token.type t_type = "KEYWORD"
    /\ nth_error tokens (S current) = Some t_name
    /\ Token.type t_name = "IDENTIFIER"
    /\ value_at tokens (S (S current)) "(" = true
    /\ ASTNode.value node = Token.value t_name
    /\ function_node node.
Proof.
  unfold parseDeclaration', parseDeclaration, type_is_not.
  unfold bind at 1. rewrite at_end_or_read.
  destruct (nth_error tokens current) as [t0|] eqn:E0; [|discriminate].
  destruct (String.eqb_spec (Token.type t0) "KEYWORD") as [K0|K0];
    [|discriminate]. cbn [negb].
  unfold bind at 1. rewrite (value_next_at _ _ _ E0).
  unfold bind at 1. rewrite at_end_or_read.
  destruct (nth_error tokens (S current)) as [t1|] eqn:E1; [|discriminate].
  destruct (String.eqb_spec (Token.type t1) "IDENTIFIER") as [K1|K1];
    [|discriminate]. cbn [negb].
  unfold bind at 1. rewrite (value_next_at _ _ _ E1).
  rewrite guard_eq.
  destruct (value_at tokens (S (S current)) "(") eqn:P; [|discriminate].
  cbv zeta. unfold bind at 1. unfold next at 1.
  unfold bind at 1.
  match goal with |- context [while fuel ?c ?b ?a ?n] =>
    destruct (while fuel c b a n) as [[u c3]| |]; try discriminate end.
  rewrite skip_if_eq, guard_eq.
  set (after := if value_at tokens c3 ")" then S c3 else c3).
  intros H. exists t0, t1. repeat split; auto.
  - destruct (value_at tokens after "{").
    + unfold bind at 1 in H. unfold next at 1 in H. unfold bind at 1 in H.
      match type of H with context [parseBlock ?x ?y ?z ?w fuel ?n] =>
        destruct (parseBlock x y z w fuel n) as [[blk c4]| |];
          try discriminate end.
      injection H as <- _. reflexivity.
    + injection H as <- _. reflexivity.
  - destruct (value_at tokens after "{").
    + unfold bind at 1 in H. unfold next at 1 in H. unfold bind at 1 in H.
      match type of H with context [parseBlock ?x ?y ?z ?w fuel ?n] =>
        destruct (parseBlock x y z w fuel n) as [[blk c4]| |];
          try discriminate end.
      injection H as <- _. reflexivity.
    + injection H as <- _. reflexivity.
  - destruct (value_at tokens after "{").
    + unfold bind at 1 in H. unfold next at 1 in H. unfold bind at 1 in H.
      match type of H with context [parseBlock ?x ?y ?z ?w fuel ?n] =>
        destruct (parseBlock x y z w fuel n) as [[blk c4]| |] eqn:B;
          try discriminate end.
      injection H as <- _.
      destruct (parseBlock_returns _ _ _ _ B) as (Tb & Vb & _).
      right. exists blk. repeat split; auto.
    + injection H as <- _. left. reflexivity.
Qed.

End ParserResults.

(** X10: whenever [parse] returns, the root is a PROGRAM node with an
    empty value whose children are all function nodes: each is a
    FUNCTION_DECLARATION named by the lexeme of an IDENTIFIER token of
    the input, with no child or with a single BLOCK child.  This holds
    whatever the undefined statement parsers do. *)
Theorem parse_result_shape :
  forall tokens pIf pRet pExpr fuel root,
    run_parse tokens pIf pRet pExpr fuel = Ok root ->
    ASTNode.type root = "PROGRAM"
    /\ ASTNode.value root = EmptyString
    /\ Forall (fun n =>
                 function_node n
                 /\ exists t, In t tokens
                              /\ Token.type t = "IDENTIFIER"
                              /\ ASTNode.value n = Token.value t)
         (ASTNode.children root).
Proof.
  intros tokens pIf pRet pExpr fuel root. unfold run_parse.
  destruct (parse tokens pIf pRet pExpr fuel 0) as [[r c]| |] eqn:P;
    try discriminate.
  intros [= ->]. unfold parse in P.
  apply (while_returns
           (fun a => ASTNode.type a = "PROGRAM"
                     /\ ASTNode.value a = EmptyString
                     /\ Forall (fun n =>
                                  function_node n
                                  /\ exists t, In t tokens
                                               /\ Token.type t = "IDENTIFIER"
                                               /\ ASTNode.value n = Token.value t)
                          (ASTNode.children a))) in P.
  - exact (proj1 P).
  - intros a c0 a' c' (Ht & Hv & Hc). unfold bind, ret.
    destruct (parseDeclaration tokens pIf pRet pExpr fuel c0)
      as [[[node|] c1]| |] eqn:D; intros [= <- <-]; [|now repeat split].
    destruct (parseDeclaration_returns_node _ _ _ _ _ _ _ _ D)
      as (t0 & t1 & _ & _ & E1 & K1 & _ & Vn & Fn).
    repeat split; auto. cbn [ASTNode.push_back_if ASTNode.push_back
                              ASTNode.children].
    apply Forall_app. split; [exact Hc|]. constructor; [|constructor].
    split; [exact Fn|]. exists t1. repeat split; auto.
    eapply nth_error_In; eauto.
  - repeat split. constructor.
Qed.

Lemma parse_result_shape_witness :
  ASTNode.type
    (ASTNode.mk "PROGRAM" EmptyString
       [ASTNode.mk "FUNCTION_DECLARATION" "main"
          [ASTNode.mk "BLOCK" EmptyString
             [ASTNode.mk "RETURN_STATEMENT" EmptyString
                [ASTNode.mk "EXPRESSION" "0" []]]]])
  = "PROGRAM".
Proof.
  exact (proj1 (parse_result_shape main_tokens
                  (SpecModel.parseIfStatement main_tokens)
                  (SpecModel.parseReturnStatement main_tokens)
                  (SpecModel.parseExpressionStatement main_tokens)
                  4 _ eq_refl)).
Defined.

(** X11: a block is a BLOCK node with an empty value, and [parseBlock]
    returns only just after a closing brace or at the end of the token
    sequence, whatever the statement parsers do. *)
Theorem parseBlock_stops_at_brace_or_end :
  forall tokens pIf pRet pExpr fuel current block current',
    parseBlock tokens pIf pRet pExpr fuel current = Ok (block, current') ->
    ASTNode.type block = "BLOCK" /\ ASTNode.value block = EmptyString
    /\ (List.length tokens <= current'
        \/ exists c t, current' = S c /\ nth_error tokens c = Some t
                       /\ Token.value t = "}").
Proof.
  intros tokens pIf pRet pExpr fuel current block current'.
  apply parseBlock_returns.
Qed.

Lemma parseBlock_stops_at_brace_or_end_witness :
  List.length main_tokens <= 9
  \/ exists c t, 9 = S c /\ nth_error main_tokens c = Some t
                 /\ Token.value t = "}".
Proof.
  exact (proj2 (proj2
    (parseBlock_stops_at_brace_or_end main_tokens
       (SpecModel.parseIfStatement main_tokens)
       (SpecModel.parseReturnStatement main_tokens)
       (SpecModel.parseExpressionStatement main_tokens)
       3 5
       (ASTNode.mk "BLOCK" EmptyString
          [ASTNode.mk "RETURN_STATEMENT" EmptyString
             [ASTNode.mk "EXPRESSION" "0" []]])
       9 eq_refl))).
Defined.

Lemma skipn_nth_error (l : list Token.t) c :
  skipn c l
  = match nth_error l c with
    | Some t => t :: skipn (S c) l
    | None => []
    end.
Proof.
  revert l; induction c as [|c IH]; intros [|t l]; try reflexivity.
  cbn [skipn nth_error]. rewrite IH. reflexivity.
Qed.

(** The loop that skips the parameters stops at the first [")"]. *)
Lemma skip_parameters tokens fuel :
  forall current,
    until_value ")" (skipn current tokens) < fuel ->
    while fuel (below_size tokens &&& value_is_not tokens ")")
      (fun _ => next) tt current
    = Ok (tt, current + until_value ")" (skipn current tokens)).
Proof.
  induction fuel as [|fuel IH]; intros current H; [lia|].
  cbn [while]. unfold bind at 1. unfold value_is_not.
  rewrite below_and_read. rewrite skipn_nth_error in H |- *.
  destruct (nth_error tokens current) as [t|] eqn:E.
  - cbn [until_value] in *.
    destruct (String.eqb (Token.value t) ")"); cbn [negb].
    + unfold ret. now rewrite Nat.add_0_r.
    + unfold bind at 1. unfold next at 1. rewrite IH by lia.
      f_equal. f_equal. lia.
  - unfold ret. cbn [until_value]. now rewrite Nat.add_0_r.
Qed.

(** [parseDeclaration] at a function head, as an equation. *)
Lemma parseDeclaration_function_head_eq :
  forall tokens pIf pRet pExpr fuel current t_type t_name,
    nth_error tokens current = Some t_type ->
    Token.type t_type = "KEYWORD" ->
    nth_error tokens (S current) = Some t_name ->
    Token.type t_name = "IDENTIFIER" ->
    value_at tokens (S (S current)) "(" = true ->
    until_value ")" (skipn (S (S (S current))) tokens) < fuel ->
    let close :=
      S (S (S current)) + until_value ")" (skipn (S (S (S current))) tokens) in
    let after := if value_at tokens close ")" then S close else close in
    let head :=
      ASTNode.mk "FUNCTION_DECLARATION" (Token.value t_name) [] in
    parseDeclaration tokens pIf pRet pExpr fuel current
    = if value_at tokens after "{" then
        match parseBlock tokens pIf pRet pExpr fuel (S after) with
        | Ok (block, current') =>
            Ok (Some (ASTNode.push_back head block), current')
        | OutOfBounds => OutOfBounds
        | OutOfFuel => OutOfFuel
        end
      else Ok (Some head, after).
Proof.
  intros tokens pIf pRet pExpr fuel current t0 t1 E0 K0 E1 K1 P Hf
         close after head.
  unfold parseDeclaration, type_is_not.
  unfold bind at 1. rewrite at_end_or_read, E0, K0, String.eqb_refl.
  cbn [negb].
  unfold bind at 1. rewrite (value_next_at _ _ _ E0).
  unfold bind at 1. rewrite at_end_or_read, E1, K1, String.eqb_refl.
  cbn [negb].
  unfold bind at 1. rewrite (value_next_at _ _ _ E1).
  rewrite guard_eq, P. cbv zeta.
  unfold bind at 1. unfold next at 1.
  unfold bind at 1. rewrite (skip_parameters _ _ _ Hf).
  rewrite skip_if_eq, guard_eq. fold close. fold after.
  destruct (value_at tokens after "{"); [|reflexivity].
  unfold bind at 1. unfold next at 1. unfold bind at 1.
  destruct (parseBlock tokens pIf pRet pExpr fuel (S after)) as [[blk c]| |];
    reflexivity.
Qed.

(** X12: what [parseDeclaration] does at a function head, that is at a
    KEYWORD followed by an IDENTIFIER and ["("].  The tokens up to the
    first [")"] are skipped, whatever they are, and that [")"] too when
    there is one; the node is a FUNCTION_DECLARATION named by the
    identifier, with no record of the parameters.  If the next token is
    not [{] the node has no child and [current] stays there; if it is,
    the block parsed after it becomes the only child. *)
Theorem parseDeclaration_function_head :
  forall tokens pIf pRet pExpr fuel current t_type t_name,
    nth_error tokens current = Some t_type ->
    Token.type t_type = "KEYWORD" ->
    nth_error tokens (S current) = Some t_name ->
    Token.type t_name = "IDENTIFIER" ->
    value_at tokens (S (S current)) "(" = true ->
    until_value ")" (skipn (S (S (S current))) tokens) < fuel ->
    let close :=
      S (S (S current)) + until_value ")" (skipn (S (S (S current))) tokens) in
    let after := if value_at tokens close ")" then S close else close in
    let head :=
      ASTNode.mk "FUNCTION_DECLARATION" (Token.value t_name) [] in
    parseDeclaration tokens pIf pRet pExpr fuel current
    = if value_at tokens after "{" then
        match parseBlock tokens pIf pRet pExpr fuel (S after) with
        | Ok (block, current') =>
            Ok (Some (ASTNode.push_back head block), current')
        | OutOfBounds => OutOfBounds
        | OutOfFuel => OutOfFuel
        end
      else Ok (Some head, after).
Proof.
  intros tokens pIf pRet pExpr fuel current t_type t_name.
  apply parseDeclaration_function_head_eq.
Qed.

Lemma parseDeclaration_function_head_witness :
  parseDeclaration main_tokens
    (SpecModel.parseIfStatement main_tokens)
    (SpecModel.parseReturnStatement main_tokens)
    (SpecModel.parseExpressionStatement main_tokens) 4 0
  = Ok (Some (ASTNode.mk "FUNCTION_DECLARATION" "main"
                [ASTNode.mk "BLOCK" EmptyString
                   [ASTNode.mk "RETURN_STATEMENT" EmptyString
                      [ASTNode.mk "EXPRESSION" "0" []]]]), 9).
Proof.
  rewrite (parseDeclaration_function_head main_tokens _ _ _ 4 0
             (Token.mk "KEYWORD" "int" 1 1) (Token.mk "IDENTIFIER" "main" 1 5)
             eq_refl eq_refl eq_refl eq_refl eq_refl
             ltac:(vm_compute; lia)).
  reflexivity.
Defined.

(** X13: [parse] can return only if, wherever it starts, it is at the
    end of the token sequence or at a KEYWORD token: at any other token
    the top-level loop never ends. *)
Theorem parse_returns_only_from_keyword :
  forall tokens pIf pRet pExpr fuel current root current',
    parse tokens pIf pRet pExpr fuel current = Ok (root, current') ->
    List.length tokens <= current
    \/ exists t, nth_error tokens current = Some t
                 /\ Token.type t = "KEYWORD".
Proof.
  intros tokens pIf pRet pExpr fuel current root current' H.
  destruct (nth_error tokens current) as [t|] eqn:E.
  - right. exists t. split; [reflexivity|].
    destruct (String.eqb_spec (Token.type t) "KEYWORD") as [K|K]; [exact K|].
    unfold parse in H.
    rewrite (parse_stuck_at_non_keyword _ pIf pRet pExpr _ _ E K) in H.
    discriminate.
  - left. now apply nth_error_None.
Qed.

Lemma parse_returns_only_from_keyword_witness :
  List.length main_tokens <= 0
  \/ exists t, nth_error main_tokens 0 = Some t /\ Token.type t = "KEYWORD".
Proof.
  exact (parse_returns_only_from_keyword main_tokens
           (SpecModel.parseIfStatement main_tokens)
           (SpecModel.parseReturnStatement main_tokens)
           (SpecModel.parseExpressionStatement main_tokens)
           4 0 _ 9 eq_refl).
Defined.

(** X14: a source text of white space only (the empty text included)
    goes through the whole pipeline: [tokenize] yields no token and
    [parse] returns a PROGRAM node without children, for any fuel of at
    least 1. *)
Theorem blank_source_gives_empty_program :
  forall source pIf pRet pExpr fuel,
    all_chars isspace source = true ->
    Lexer.tokenize source = Some []
    /\ run_parse [] pIf pRet pExpr (S fuel) = Ok (ASTNode.make "PROGRAM").
Proof.
  intros source pIf pRet pExpr fuel H. split; [|reflexivity].
  apply tokenize_Lexes. now apply Lexes_white_space.
Qed.

Lemma blank_source_gives_empty_program_witness :
  Lexer.tokenize (String " " (String newline EmptyString)) = Some []
  /\ run_parse [] (SpecModel.parseIfStatement [])
       (SpecModel.parseReturnStatement [])
       (SpecModel.parseExpressionStatement []) 1
     = Ok (ASTNode.make "PROGRAM").
Proof.
  exact (blank_source_gives_empty_program
           (String " " (String newline EmptyString)) _ _ _ 0 eq_refl).
Defined.

(* ================================================================== *)
(** ** Parsing a sequence of functions *)

(** The tokens of a function without statements: type, name, ["("],
    parameter tokens, [")"], and an optional body of ["{"] and ["}"]. *)
Record function_text : Type := {
  f_type : Token.t;
  f_name : Token.t;
  f_open : Token.t;
  f_params : list Token.t;
  f_close : Token.t;
  f_body : option (Token.t * Token.t)
}.

Definition body_tokens (body : option (Token.t * Token.t)) : list Token.t :=
  match body with
  | Some (lb, rb) => [lb; rb]
  | None => []
  end.

Definition function_tokens (f : function_text) : list Token.t :=
  f_type f :: f_name f :: f_open f
    :: f_params f ++ f_close f :: body_tokens (f_body f).

(** The token before the name has type KEYWORD, the name has type
    IDENTIFIER, the brackets have the lexemes they stand for, and no
    parameter token is [")"]. *)
Definition well_formed_function (f : function_text) : Prop :=
  Token.type (f_type f) = "KEYWORD"
  /\ Token.type (f_name f) = "IDENTIFIER"
  /\ Token.value (f_open f) = "("
  /\ Forall (fun t => Token.value t <> ")") (f_params f)
  /\ Token.value (f_close f) = ")"
  /\ match f_body f with
     | Some (lb, rb) => Token.value lb = "{" /\ Token.value rb = "}"
     | None => True
     end.

(** The lexeme of the type token is not ["{"].  The lexer gives the type
    KEYWORD to words only, but the parser looks at the type alone, and
    after a function without a body it takes a token with the lexeme
    ["{"] for the start of that function's body. *)
Definition type_is_no_brace (f : function_text) : Prop :=
  Token.value (f_type f) <> "{".

(** The node expected for it: the name, and an empty block when there
    is a body. *)
Definition function_tree (f : function_text) : ASTNode.t :=
  ASTNode.mk "FUNCTION_DECLARATION" (Token.value (f_name f))
    (match f_body f with
     | Some _ => [ASTNode.make "BLOCK"]
     | None => []
     end).

Lemma nth_error_app_plus (pre l : list Token.t) i :
  nth_error (pre ++ l) (List.length pre + i) = nth_error l i.
Proof. induction pre; simpl; auto. Qed.

Lemma skipn_app_plus (pre l : list Token.t) i :
  skipn (List.length pre + i) (pre ++ l) = skipn i l.
Proof. induction pre; simpl; auto. Qed.

Lemma value_at_app_plus (pre l : list Token.t) i v :
  value_at (pre ++ l) (List.length pre + i) v = value_at l i v.
Proof. unfold value_at. now rewrite nth_error_app_plus. Qed.

Lemma until_value_params params (close : Token.t) rest :
  Forall (fun t => Token.value t <> ")") params ->
  Token.value close = ")" ->
  until_value ")" (params ++ close :: rest) = List.length params.
Proof.
  intros Hp Hc. induction Hp as [|t ts Ht Hts IH]; simpl.
  - now rewrite Hc.
  - apply String.eqb_neq in Ht. now rewrite Ht, IH.
Qed.

Lemma value_at_after_params params (t : Token.t) rest v :
  value_at (params ++ t :: rest) (List.length params) v
  = String.eqb (Token.value t) v.
Proof.
  unfold value_at.
  rewrite <- (Nat.add_0_r (List.length params)), nth_error_app_plus.
  reflexivity.
Qed.

Lemma value_at_next_after_params params (t : Token.t) rest v :
  value_at (params ++ t :: rest) (S (List.length params)) v
  = value_at rest 0 v.
Proof.
  unfold value_at.
  replace (S (List.length params)) with (List.length params + 1) by lia.
  rewrite nth_error_app_plus. reflexivity.
Qed.

(** A block that is closed at once is empty. *)
Lemma parseBlock_empty tokens pIf pRet pExpr fuel current :
  value_at tokens current "}" = true ->
  parseBlock tokens pIf pRet pExpr (S (S fuel)) current
  = Ok (ASTNode.make "BLOCK", S current).
Proof.
  intros H. rewrite (parseBlock_unfold tokens pIf pRet pExpr (S fuel)).
  cbn [while].
  unfold bind at 1. unfold bind at 1. unfold value_is_not.
  rewrite below_and_read. unfold value_at in H.
  destruct (nth_error tokens current) as [t|] eqn:E; [|discriminate].
  rewrite H. cbn [negb]. unfold ret at 1.
  rewrite skip_if_eq. unfold value_at. now rewrite E, H.
Qed.

Lemma parseDeclaration_function_text pre f rest pIf pRet pExpr fuel :
  well_formed_function f ->
  value_at rest 0 "{" = false ->
  List.length (f_params f) < fuel -> 2 <= fuel ->
  parseDeclaration (pre ++ function_tokens f ++ rest) pIf pRet pExpr fuel
    (List.length pre)
  = Ok (Some (function_tree f),
        List.length pre + List.length (function_tokens f)).
Proof.
  intros (Kt & It & Ov & Pv & Cv & Bv) Hrest Hf H2.
  destruct f as [tK tI tO params tC body]. cbn [f_type f_name f_open f_params
    f_close f_body] in *.
  unfold function_tokens, function_tree.
  cbn [f_type f_name f_open f_params f_close f_body].
  set (tail := body_tokens body ++ rest).
  assert (Etoks : (tK :: tI :: tO :: params ++ tC :: body_tokens body) ++ rest
                  = tK :: tI :: tO :: params ++ tC :: tail).
  { unfold tail. cbn [app]. now rewrite <- app_assoc. }
  rewrite Etoks.
  set (l := tK :: tI :: tO :: params ++ tC :: tail).
  assert (N : forall i, nth_error (pre ++ l) (List.length pre + i)
                        = nth_error l i) by apply nth_error_app_plus.
  assert (Sk : skipn (S (S (S (List.length pre)))) (pre ++ l)
               = params ++ tC :: tail).
  { replace (S (S (S (List.length pre)))) with (List.length pre + 3) by lia.
    now rewrite skipn_app_plus. }
  assert (V : forall i v, value_at (pre ++ l) (List.length pre + (3 + i)) v
                          = value_at (params ++ tC :: tail) i v).
  { intros i v. now rewrite value_at_app_plus. }
  rewrite (parseDeclaration_function_head_eq (pre ++ l) pIf pRet pExpr fuel
             (List.length pre) tK tI).
  - rewrite Sk, (until_value_params _ _ _ Pv Cv).
    replace (S (S (S (List.length pre))) + List.length params)
      with (List.length pre + (3 + List.length params)) by lia.
    rewrite V, value_at_after_params, Cv, String.eqb_refl.
    replace (S (List.length pre + (3 + List.length params)))
      with (List.length pre + (3 + S (List.length params))) by lia.
    rewrite V, value_at_next_after_params.
    destruct body as [[lb rb]|]; cbn [body_tokens app] in *.
    + destruct Bv as [Lv Rv]. unfold tail. cbn [app value_at nth_error].
      rewrite Lv, String.eqb_refl.
      destruct fuel as [|[|fuel]]; try lia.
      rewrite parseBlock_empty.
      * cbn [ASTNode.push_back ASTNode.children ASTNode.type ASTNode.value app].
        f_equal. f_equal. cbn [List.length]. rewrite length_app.
        cbn [List.length]. lia.
      * replace (S (List.length pre + (3 + S (List.length params))))
          with (List.length pre + (3 + S (S (List.length params)))) by lia.
        rewrite V.
        replace (S (S (List.length params)))
          with (List.length params + 2) by lia.
        unfold value_at. rewrite nth_error_app_plus.
        unfold tail. cbn [app nth_error].
        now rewrite Rv, String.eqb_refl.
    + unfold tail. cbn [app]. rewrite Hrest.
      f_equal. f_equal. cbn [List.length]. rewrite length_app.
        cbn [List.length]. lia.
  - rewrite <- (Nat.add_0_r (List.length pre)), N. reflexivity.
  - exact Kt.
  - replace (S (List.length pre)) with (List.length pre + 1) by lia.
    rewrite N. reflexivity.
  - exact It.
  - replace (S (S (List.length pre))) with (List.length pre + 2) by lia.
    rewrite value_at_app_plus. unfold value_at. cbn [nth_error l].
    now rewrite Ov, String.eqb_refl.
  - rewrite Sk, (until_value_params _ _ _ Pv Cv). exact Hf.
Qed.

Lemma value_at_next_function fs :
  Forall type_is_no_brace fs ->
  value_at (List.concat (map function_tokens fs)) 0 "{" = false.
Proof.
  intros [|f fs' Kv _]; [reflexivity|]. unfold type_is_no_brace in Kv.
  cbn [map List.concat function_tokens app value_at nth_error].
  now apply String.eqb_neq.
Qed.

Lemma parse_functions_from pIf pRet pExpr fuel0 :
  2 <= fuel0 ->
  forall fs,
    Forall well_formed_function fs ->
    Forall type_is_no_brace fs ->
    Forall (fun f => List.length (f_params f) < fuel0) fs ->
    forall pre root fuel,
      List.length fs < fuel ->
      while fuel (below_size (pre ++ List.concat (map function_tokens fs)))
        (fun root =>
           node <- parseDeclaration (pre ++ List.concat (map function_tokens fs))
                     pIf pRet pExpr fuel0 ;;
           ret (ASTNode.push_back_if root node))
        root (List.length pre)
      = Ok (ASTNode.mk (ASTNode.type root) (ASTNode.value root)
              (ASTNode.children root ++ map function_tree fs),
            List.length (pre ++ List.concat (map function_tokens fs))).
Proof.
  intros H2. induction fs as [|f fs IH]; intros Hwf Hnb Hp pre root fuel Hf.
  - destruct fuel as [|fuel]; [simpl in Hf; lia|].
    cbn [map List.concat while]. unfold bind at 1, below_size.
    rewrite !app_nil_r, Nat.ltb_irrefl. unfold ret. now destruct root.
  - destruct fuel as [|fuel]; [simpl in Hf; lia|].
    inversion Hwf as [|? ? Wf Wfs]; subst.
    inversion Hnb as [|? ? Nf Nfs]; subst.
    inversion Hp as [|? ? Pf Pfs]; subst.
    cbn [map List.concat while]. unfold bind at 1. unfold below_size at 1.
    assert (Hlt : List.length pre
                  < List.length (pre ++ function_tokens f
                                     ++ List.concat (map function_tokens fs))).
    { rewrite !length_app. unfold function_tokens. cbn [List.length]. lia. }
    apply Nat.ltb_lt in Hlt. rewrite Hlt.
    unfold bind at 1. unfold bind at 1.
    rewrite parseDeclaration_function_text;
      auto using value_at_next_function.
    unfold ret at 1. cbn [ASTNode.push_back_if].
    rewrite <- length_app.
    replace (pre ++ function_tokens f ++ List.concat (map function_tokens fs))
      with ((pre ++ function_tokens f) ++ List.concat (map function_tokens fs))
      by now rewrite app_assoc.
    rewrite IH; auto; [|cbn [List.length] in Hf; lia].
    cbn [ASTNode.push_back ASTNode.type ASTNode.value ASTNode.children].
    now rewrite <- app_assoc.
Qed.

(** X15: a sequence of functions without statements is parsed to the
    end.  For token sequences made of well-formed function texts (a
    token of type KEYWORD, an IDENTIFIER, ["("], any tokens other than
    [")"], [")"], and optionally ["{"] ["}"]) in which no KEYWORD token
    that opens a function has the lexeme ["{"], [parse] returns, with
    enough fuel, a PROGRAM whose children are the functions in order:
    each named by its identifier, with an empty BLOCK child when it has a
    body and no child otherwise; the parameter tokens leave no trace. *)
Theorem parse_function_sequence :
  forall fs pIf pRet pExpr fuel,
    Forall well_formed_function fs ->
    Forall (fun f => Token.value (f_type f) <> "{") fs ->
    Forall (fun f => List.length (f_params f) < fuel) fs ->
    List.length fs < fuel -> 2 <= fuel ->
    run_parse (List.concat (map function_tokens fs)) pIf pRet pExpr fuel
    = Ok (ASTNode.mk "PROGRAM" EmptyString (map function_tree fs)).
Proof.
  intros fs pIf pRet pExpr fuel Hwf Hnb Hp Hf H2.
  unfold run_parse, parse.
  pose proof (parse_functions_from pIf pRet pExpr fuel H2 fs Hwf Hnb Hp []
                (ASTNode.make "PROGRAM") fuel Hf) as H.
  cbn [app List.length] in H. now rewrite H.
Qed.

(** The texts of [int f(int a) {}] and [void g()]. *)
Definition two_functions : list function_text :=
  [ {| f_type := Token.mk "KEYWORD" "int" 1 1;
       f_name := Token.mk "IDENTIFIER" "f" 1 5;
       f_open := Token.mk "PUNCTUATION" "(" 1 6;
       f_params := [Token.mk "KEYWORD" "int" 1 7;
                    Token.mk "IDENTIFIER" "a" 1 11];
       f_close := Token.mk "PUNCTUATION" ")" 1 12;
       f_body := Some (Token.mk "PUNCTUATION" "{" 1 14,
                       Token.mk "PUNCTUATION" "}" 1 15) |};
    {| f_type := Token.mk "KEYWORD" "void" 1 17;
       f_name := Token.mk "IDENTIFIER" "g" 1 22;
       f_open := Token.mk "PUNCTUATION" "(" 1 23;
       f_params := [];
       f_close := Token.mk "PUNCTUATION" ")" 1 24;
       f_body := None |} ].

Lemma parse_function_sequence_witness :
  Lexer.tokenize "int f(int a) {} void g()"
  = Some (List.concat (map function_tokens two_functions))
  /\ run_parse (List.concat (map function_tokens two_functions))
       (SpecModel.parseIfStatement [])
       (SpecModel.parseReturnStatement [])
       (SpecModel.parseExpressionStatement []) 3
     = Ok (ASTNode.mk "PROGRAM" EmptyString
             [ASTNode.mk "FUNCTION_DECLARATION" "f" [ASTNode.make "BLOCK"];
              ASTNode.mk "FUNCTION_DECLARATION" "g" []]).
Proof.
  split; [reflexivity|].
  apply (parse_function_sequence two_functions).
  - repeat constructor; simpl; discriminate.
  - repeat constructor; simpl; discriminate.
  - repeat constructor.
  - simpl. lia.
  - lia.
Defined.
